(** * Score matching losses and conservative-field integration

    A shallow embedding of [diffusion/losses.py] and of [scores_rect2d] and
    [integrate_scores_rect2d] from [diffusion/examples/toy_matching.py].

    Tensors are nested lists ([vec] for a 1-D tensor, [batch] for a B×D one);
    Python exceptions are values of [exn] carried by the [result] monad; the
    element type of the tensors is a parameter ([Scalar]), so that every
    statement names the arithmetic laws it relies on.  Random draws
    ([torch.randn_like], [torch.randint]) are read from oracles passed as
    arguments. *)

From Stdlib Require Import ZArith QArith Qcanon Ring Field Lia.
From stdpp Require Import base tactics option list.

(** ** Scalars *)

(** The operations the code applies to tensor elements and Python numbers. *)
Class Scalar (num : Type) : Type := {
  zero : num;
  one : num;
  half : num;                       (* the literal 0.5 *)
  add : num → num → num;
  sub : num → num → num;
  mul : num → num → num;
  div : num → num → num;
  opp : num → num;
  of_Z : Z → num;                   (* int to float conversion *)
  is_zero : num → bool;             (* [v == 0.0], tested by Python's [/] *)
  ltb : num → num → bool;
}.

Declare Scope scalar_scope.
Delimit Scope scalar_scope with S.
Infix "+" := add : scalar_scope.
Infix "-" := sub : scalar_scope.
Infix "*" := mul : scalar_scope.
Infix "/" := div : scalar_scope.
Notation "- x" := (opp x) : scalar_scope.

(** [v ** 2], on Python floats and element-wise on tensors. *)
Definition sq {num : Type} `{Scalar num} (v : num) : num := (v * v)%S.

(** Exact arithmetic: the laws of an ordered field, which floating point
    satisfies only up to rounding. *)
Class ExactArithmetic (num : Type) `{Scalar num} : Prop := {
  scalar_field :
    field_theory zero one add mul sub opp div (λ v, div one v) (@eq num);
  is_zero_spec : ∀ v, is_zero v = true ↔ v = zero;
  ltb_irrefl : ∀ v, ltb v v = false;
}.

(** ** Exceptions *)

Inductive exn : Set :=
  | ZeroDivisionError
  | IndexError
  | RuntimeError.

Inductive result (A : Type) : Type :=
  | Ok (a : A)
  | Err (e : exn).
Arguments Ok {A} a.
Arguments Err {A} e.

Global Instance result_ret : MRet result := λ A a, Ok a.
Global Instance result_bind : MBind result := λ A B f r,
  match r with
  | Ok a => f a
  | Err e => Err e
  end.

Definition is_Err {A} (r : result A) : Prop := ∃ e, r = Err e.
Definition is_Ok {A} (r : result A) : Prop := ∃ a, r = Ok a.

(** [for i in l: s = body(i, s)], stopping at the first exception. *)
Fixpoint for_ {St : Type} (l : list nat) (body : nat → St → result St)
    (s : St) : result St :=
  match l with
  | [] => Ok s
  | i :: l' => s' ← body i s; for_ l' body s'
  end.

(** ** Tensors *)

(** A 1-D tensor and a B×D tensor, as Python sees them: rows of numbers. *)
Abbreviation vec num := (list num) (only parsing).
Abbreviation batch num := (list (list num)) (only parsing).

Section Tensors.
Context {num : Type} `{Scalar num}.

(** [t.sum(-1)] of a 1-D tensor. *)
Definition tsum (v : vec num) : num := foldr add zero v.

(** [t.mean()] of a 1-D tensor; no exception on an empty one. *)
Definition mean (v : vec num) : num :=
  (tsum v / of_Z (Z.of_nat (length v)))%S.

(** [t[i]] and [t[i, j]] with the bounds check of a non-negative index. *)
Definition getitem {A} (t : list A) (i : nat) : result A :=
  match t !! i with
  | Some a => Ok a
  | None => Err IndexError
  end.

Definition getitem2 {A} (t : list (list A)) (i j : nat) : result A :=
  row ← getitem t i; getitem row j.

(** [t[i, j] = v]. *)
Definition setitem2 {A} (t : list (list A)) (i j : nat) (v : A)
    : result (list (list A)) :=
  match t !! i with
  | Some row =>
      if decide (j < length row) then Ok (<[i := <[j := v]> row]> t)
      else Err IndexError
  | None => Err IndexError
  end.

(** [t.new_zeros((n, m))]. *)
Definition new_zeros (n m : Z) : result (batch num) :=
  if decide (n < 0 ∨ m < 0)%Z then Err RuntimeError
  else Ok (replicate (Z.to_nat n) (replicate (Z.to_nat m) zero)).

(** [a / b] on Python numbers whose divisor is the integer [b]. *)
Definition pydiv_int (a : num) (b : Z) : result num :=
  if decide (b = 0%Z) then Err ZeroDivisionError else Ok (a / of_Z b)%S.

(** [t[..., c]]: component [c] of every innermost vector. *)
Definition select_last (t : list (batch num)) (c : nat)
    : result (batch num) :=
  mapM (mapM (λ v : vec num, getitem v c)) t.

(** [t[1:]] and [t[:-1]] on the leading axis. *)
Definition tail_slice {A} (t : list A) : list A := drop 1 t.
Definition init_slice {A} (t : list A) : list A := take (length t - 1) t.

(** Element-wise [a + b] of two 2-D tensors of one shape. *)
Definition tadd2 (a b : batch num) : batch num :=
  zip_with (zip_with add) a b.

(** Element-wise operations; a Python scalar or a [(B,1)] tensor is
    broadcast along the rows. *)
Definition tsub2 (a b : batch num) : batch num := zip_with (zip_with sub) a b.
Definition tmul_scalar (t : batch num) (s : num) : batch num :=
  (λ row : vec num, (λ v, v * s)%S <$> row) <$> t.
Definition scalar_tmul (s : num) (t : batch num) : batch num :=
  (λ row : vec num, (λ v, s * v)%S <$> row) <$> t.
Definition tmul_col (t : batch num) (col : vec num) : batch num :=
  zip_with (λ (row : vec num) s, (λ v, v * s)%S <$> row) t col.
Definition col_tmul (col : vec num) (t : batch num) : batch num :=
  zip_with (λ s (row : vec num), (λ v, s * v)%S <$> row) col t.

End Tensors.

(** ** [toy_matching.integrate_scores_rect2d] *)

(** [range(a, b)], as the list of the indices it yields. *)
Definition range (a b : Z) : list nat := seq (Z.to_nat a) (Z.to_nat (b - a)).

Section Integrator.
Context {num : Type} `{Scalar num}.

(** Lines 89-90: [(lim[1] - lim[0]) / (n - 1)] on Python integers. *)
Definition grid_spacing (lim : Z * Z) (n : Z) : result num :=
  pydiv_int (of_Z (lim.2 - lim.1)) (n - 1).

(** Line 92: [0.5 * (scores[:, 1:, 0] + scores[:, :-1, 0]) * hx]. *)
Definition trapezoid_x (scores : list (batch num)) (hx : num)
    : result (batch num) :=
  s1 ← select_last (tail_slice <$> scores) 0;
  s0 ← select_last (init_slice <$> scores) 0;
  Ok (tmul_scalar (scalar_tmul half (tadd2 s1 s0)) hx).

(** Line 93: [0.5 * (scores[1:, :, 1] + scores[:-1, :, 1]) * hy]. *)
Definition trapezoid_y (scores : list (batch num)) (hy : num)
    : result (batch num) :=
  s1 ← select_last (tail_slice scores) 1;
  s0 ← select_last (init_slice scores) 1;
  Ok (tmul_scalar (scalar_tmul half (tadd2 s1 s0)) hy).

(** Lines 100-101: the walk up column [ix]. *)
Definition walk_column (ty : batch num) (n_y : Z) (ix : nat) (u : batch num)
    : result (batch num) :=
  for_ (range 1 n_y) (λ iy u,
    a ← getitem2 ty (iy - 1) ix;
    b ← getitem2 u (iy - 1) ix;
    setitem2 u iy ix (a + b)%S) u.

(** Lines 97-101: the walk along the bottom row and up every column. *)
Definition walk (tx ty : batch num) (n_x n_y : Z) (u : batch num)
    : result (batch num) :=
  for_ (range 0 n_x) (λ ix u,
    u ← (if decide (0 < ix) then
           a ← getitem2 tx 0 (ix - 1);
           b ← getitem2 u 0 (ix - 1);
           setitem2 u 0 ix (a + b)%S
         else Ok u);
    walk_column ty n_y ix u) u.

(** [scores] is the tensor argument (the branch [torch.is_tensor(scores)]);
    [xlim], [ylim] are the annotated [tuple[int, int]]. *)
Definition integrate_scores_rect2d (scores : list (batch num))
    (xlim ylim : Z * Z) (n_x n_y : Z) (c : num) : result (batch num) :=
  u ← new_zeros n_y n_x;
  hx ← grid_spacing xlim n_x;
  hy ← grid_spacing ylim n_y;
  tx ← trapezoid_x scores hx;
  ty ← trapezoid_y scores hy;
  u ← setitem2 u 0 0 c;
  walk tx ty n_x n_y u.

(** The grid the claims describe: entry [(iy, ix)] of a 2-D tensor and
    component [c] of the vector at [(iy, ix)] of a field. *)
Definition at2 {A} (t : list (list A)) (iy ix : nat) : option A :=
  row ← t !! iy; row !! ix.
Definition at3 {A} (t : list (list (list A))) (iy ix c : nat) : option A :=
  v ← at2 t iy ix; v !! c.

Definition grid_at (u : batch num) (iy ix : nat) : num :=
  default zero (at2 u iy ix).
Definition field_x (v : list (batch num)) (iy ix : nat) : num :=
  default zero (at3 v iy ix 0).
Definition field_y (v : list (batch num)) (iy ix : nat) : num :=
  default zero (at3 v iy ix 1).

(** Component [c] of every vector of a field. *)
Definition component (c : nat) (v : list (batch num)) : batch num :=
  fmap (M:=list) (λ x : vec num, default zero (x !! c)) <$> v.

(** Shapes of rectangular tensors. *)
Definition shape2 {A} (t : list (list A)) (n m : nat) : Prop :=
  length t = n ∧ Forall (λ row, length row = m) t.
Definition shape3 {A} (t : list (list (list A))) (n m c : nat) : Prop :=
  length t = n ∧ Forall (λ row, shape2 row m c) t.

(** The closed form of the walk: [row0] along the bottom row from the
    increments [tx0], then up each column with the increments [ty]. *)
Fixpoint walk_row0 (tx0 : nat → num) (c : num) (ix : nat) : num :=
  match ix with
  | 0 => c
  | S i => (tx0 i + walk_row0 tx0 c i)%S
  end.
Fixpoint walk_grid (tx0 : nat → num) (ty : nat → nat → num) (c : num)
    (iy ix : nat) : num :=
  match iy with
  | 0 => walk_row0 tx0 c ix
  | S j => (ty j ix + walk_grid tx0 ty c j ix)%S
  end.

End Integrator.

(** ** [losses.py] *)

Section Losses.
Context {num : Type} `{Scalar num}.

(** A score model [f : R^D → R^D], applied to every row of a batch.  Its
    differentiability is the capability [jacobian]: [jacobian x] is the D×D
    matrix [J(x)[i][j] = ∂f_i/∂x_j] that automatic differentiation yields at
    the point [x]. *)
Record DataScoreModel : Type := {
  score : vec num → vec num;
  jacobian : vec num → batch num;
}.

(** [score_model(x)] on a batch. *)
Definition forward (m : DataScoreModel) (x : batch num) : batch num :=
  score m <$> x.

(** A score model conditioned on a noise-level index, called on a batch and
    one index per row. *)
Record ConditionalDataScoreModel : Type := {
  cond_score : vec num → nat → vec num;
}.

Definition cond_forward (m : ConditionalDataScoreModel) (x : batch num)
    (ids : list nat) : batch num :=
  zip_with (cond_score m) x ids.

(** Modelled from the spec: [jacobians.full_jacobian], the Jacobian of the
    batched map, of shape B×D×B×D, [j[k][i][l][d] = ∂F(X)[k][i]/∂X[l][d]];
    the block [j[k][:][k][:]] is the Jacobian of the model at [X[k]] and the
    blocks off the batch diagonal are zero. *)
Definition full_jacobian (m : DataScoreModel) (x : batch num)
    : list (list (batch num)) :=
  imap (λ k xk,
    (λ Ji : vec num,
       imap (λ l xl, if decide (l = k) then Ji else (λ _, zero) <$> xl) x)
    <$> jacobian m xk) x.

(** Modelled from the spec: [jacobians.batched_jacobian], the replicated-input
    strategy for [n] output dimensions, of shape B×n×D,
    [j[k][i][d] = ∂f_i/∂x_d] at [X[k]]; no cross-sample blocks are formed. *)
Definition batched_jacobian (m : DataScoreModel) (x : batch num) (n : nat)
    : list (batch num) :=
  (λ xk, take n (jacobian m xk)) <$> x.

Definition getitem3 {A} (t : list (list (list A))) (a b c : nat)
    : result A :=
  r ← getitem t a; getitem2 r b c.

Definition getitem4 {A} (t : list (list (list (list A)))) (a b c d : nat)
    : result A :=
  r ← getitem t a; getitem3 r b c d.

(** [(t ** 2).sum(dim=-1)]. *)
Definition sq_sum_last (t : batch num) : vec num :=
  (λ row : vec num, tsum (sq <$> row)) <$> t.

Definition _ism (tr_jac : vec num) (scores : batch num) : num :=
  mean (zip_with add tr_jac ((λ s, half * s)%S <$> sq_sum_last scores)).

(** Lines 16-18 of [ism_loss]: the trace read off the full Jacobian. *)
Definition ism_loss_tr (m : DataScoreModel) (x : batch num)
    : result (vec num) :=
  let B := length x in
  let j := full_jacobian m x in
  d0 ← mapM (λ k, getitem4 j k 0 k 0) (seq 0 B);
  d1 ← mapM (λ k, getitem4 j k 1 k 1) (seq 0 B);
  Ok (zip_with add d0 d1).

Definition ism_loss (m : DataScoreModel) (x : batch num) : result num :=
  tr ← ism_loss_tr m x;
  Ok (_ism tr (forward m x)).

(** Lines 27-29 of [ism_loss_fast]. *)
Definition ism_loss_fast_tr (m : DataScoreModel) (x : batch num)
    : result (vec num) :=
  let B := length x in
  let j := batched_jacobian m x 2 in
  d0 ← mapM (λ k, getitem3 j k 0 0) (seq 0 B);
  d1 ← mapM (λ k, getitem3 j k 1 1) (seq 0 B);
  Ok (zip_with add d0 d1).

Definition ism_loss_fast (m : DataScoreModel) (x : batch num) : result num :=
  tr ← ism_loss_fast_tr m x;
  Ok (_ism tr (forward m x)).

(** [torch.randn_like(x)]: the draw for row [k], column [d] is [eps k d]. *)
Definition randn_like (eps : nat → nat → num) (x : batch num) : batch num :=
  imap (λ k row, imap (λ d _, eps k d) row) x.

(** [torch.randint(low, high, size=(n,))]: entry [k] is the draw [rnd k]
    brought into [low .. high-1]. *)
Definition randint (rnd : nat → nat) (low high n : nat)
    : result (list nat) :=
  if decide (low < high)
  then Ok ((λ k, low + rnd k `mod` (high - low)) <$> seq 0 n)
  else Err RuntimeError.

(** [a / b] on Python floats. *)
Definition pydiv (a b : num) : result num :=
  if is_zero b then Err ZeroDivisionError else Ok (a / b)%S.

Definition dsm_loss (m : DataScoreModel) (x : batch num) (sigma : num)
    (eps : nat → nat → num) : result num :=
  let xn := tadd2 x (tmul_scalar (randn_like eps x) sigma) in
  w ← pydiv one (sq sigma);
  let targets := scalar_tmul w (tsub2 x xn) in
  let scores := forward m xn in
  Ok (half * mean (sq_sum_last (tsub2 scores targets)))%S.

Definition ncsm_loss (m : ConditionalDataScoreModel) (x : batch num)
    (sigmae : vec num) (rnd : nat → nat) (eps : nat → nat → num)
    : result num :=
  ids ← randint rnd 0 (length sigmae) (length x);
  chosen_sigma ← mapM (getitem sigmae) ids;
  let xn := tadd2 x (tmul_col (randn_like eps x) chosen_sigma) in
  let targets :=
    col_tmul ((λ s, one / sq s)%S <$> chosen_sigma) (tsub2 x xn) in
  let scores := cond_forward m xn ids in
  let losses := (λ s, half * s)%S <$> sq_sum_last (tsub2 scores targets) in
  let lambd := sq <$> chosen_sigma in
  Ok (mean (zip_with mul losses lambd)).

(** [ISMLoss(enable_fast).forward]: the strategy is chosen at construction. *)
Definition ISMLoss_forward (enable_fast : bool) (m : DataScoreModel)
    (x : batch num) : result num :=
  if enable_fast then ism_loss_fast m x else ism_loss m x.

End Losses.

Arguments DataScoreModel num : clear implicits.
Arguments ConditionalDataScoreModel num : clear implicits.

(** ** [toy_matching.scores_rect2d] *)

Section ModelGrid.
Context {num : Type} `{Scalar num}.

(** [torch.linspace(start, end, steps)] as documented: the [steps] points
    [start, start + step, …, end] with [step = (end - start) / (steps - 1)],
    the single point [start] when [steps] is 1, and an error on a negative
    number of steps. *)
Definition linspace (start stop : Z) (steps : Z) : result (vec num) :=
  if decide (steps < 0)%Z then Err RuntimeError
  else if decide (steps = 1)%Z then Ok [of_Z start]
  else
    let step := ((of_Z stop - of_Z start) / of_Z (steps - 1))%S in
    Ok ((λ i, if decide (i + 1 = Z.to_nat steps) then of_Z stop
              else (of_Z start + of_Z (Z.of_nat i) * step)%S)
        <$> seq 0 (Z.to_nat steps)).

(** [torch.meshgrid(a, b)] with the default indexing [ij]: two
    [len(a)×len(b)] tensors, the first constant along every row, the second
    along every column. *)
Definition meshgrid (a b : vec num) : batch num * batch num :=
  ((λ ai, (λ _, ai) <$> b) <$> a, (λ _ : num, b) <$> a).

(** [torch.stack((a, b), -1)] of two 2-D tensors of one shape. *)
Definition stack_last (a b : batch num) : list (batch num) :=
  zip_with (zip_with (λ p q, [p; q])) a b.

(** [t.view(-1, 2)] of an N×M×2 tensor: its N·M vectors in row-major
    order. *)
Definition view_points (t : list (batch num)) : batch num := mjoin t.

(** [t.view(n, m, c)] of a 2-D tensor: its elements in row-major order,
    regrouped; an error unless there are [n·m·c] of them. *)
Definition view3 (t : batch num) (n m c : nat) : result (list (batch num)) :=
  let flat := mjoin t in
  if decide (length flat = n * m * c)
  then Ok (reshape (replicate n m) (reshape (replicate (n * m) c) flat))
  else Err RuntimeError.

(** Lines 56-69.  The counts are not negative where [view] is reached:
    [linspace] has raised otherwise.  [device] places the tensors and does
    not change their values. *)
Definition scores_rect2d (score_model : DataScoreModel num)
    (xlim ylim : Z * Z) (n_x n_y : Z) : result (list (batch num)) :=
  X ← linspace xlim.1 xlim.2 n_x;
  Y ← linspace ylim.1 ylim.2 n_y;
  let '(U, V) := meshgrid Y X in
  let UV := stack_last V U in
  view3 (forward score_model (view_points UV))
    (Z.to_nat n_y) (Z.to_nat n_x) 2.

(** The first argument of [integrate_scores_rect2d],
    [Union[torch.Tensor, types.DataScoreModel]]. *)
Inductive scores_arg : Type :=
  | scores_tensor (t : list (batch num))
  | scores_model (m : DataScoreModel num).

(** [integrate_scores_rect2d] on either kind of argument (lines 83-84): a
    score model is evaluated on the grid first. *)
Definition integrate_scores_rect2d_any (scores : scores_arg)
    (xlim ylim : Z * Z) (n_x n_y : Z) (c : num) : result (batch num) :=
  match scores with
  | scores_tensor t => integrate_scores_rect2d t xlim ylim n_x n_y c
  | scores_model m =>
      t ← scores_rect2d m xlim ylim n_x n_y;
      integrate_scores_rect2d t xlim ylim n_x n_y c
  end.

(** The point of the grid in row [iy] and column [ix], [x] first. *)
Definition grid_point (X Y : vec num) (iy ix : nat) : vec num :=
  [default zero (X !! ix); default zero (Y !! iy)].

End ModelGrid.

Arguments scores_arg num : clear implicits.

(** ** The quantities the claims are stated with *)

Section LossSpecs.
Context {num : Type} `{Scalar num}.

(** The trace of a square matrix, the sum of its diagonal entries. *)
Definition diagonal (j : batch num) : vec num :=
  imap (λ i (row : vec num), default zero (row !! i)) j.
Definition trace (j : batch num) : num := tsum (diagonal j).

(** The two diagonal entries the code adds up. *)
Definition diag01 (j : batch num) : num :=
  (default zero (at2 j 0 0) + default zero (at2 j 1 1))%S.

(** The squared Euclidean norm, summed over the D dimensions. *)
Definition sq_norm (v : vec num) : num := tsum (sq <$> v).

(** The Jacobian of a model at every point of a batch is D×D. *)
Definition jacobian_shape (m : DataScoreModel num) (x : batch num) (D : nat)
    : Prop :=
  Forall (λ xk : vec num, length xk = D ∧ shape2 (jacobian m xk) D D) x.

(** The term of one sample in the implicit score matching objective. *)
Definition ism_term (m : DataScoreModel num) (xk : vec num) : num :=
  (trace (jacobian m xk) + half * sq_norm (score m xk))%S.

(** Row [k] of the noise tensor drawn for a batch whose row [k] is [xk]. *)
Definition noise_row (eps : nat → nat → num) (k : nat) (xk : vec num)
    : vec num :=
  imap (λ d _, eps k d) xk.

(** The denoising residual of one sample as the code computes it:
    [xn = x + eps * sigma], [target = (1 / sigma ** 2) * (x - xn)] and the
    squared norm of [f(xn) - target]. *)
Definition denoise_residual (f : vec num → vec num) (xk ek : vec num)
    (sigma : num) : num :=
  let xn := zip_with add xk ((λ e, e * sigma)%S <$> ek) in
  let target := (λ d, one / sq sigma * d)%S <$> zip_with sub xk xn in
  sq_norm (zip_with sub (f xn) target).

(** The denoising residual of one sample in the words of the specification:
    [x_noisy = x + σε], [target = -(x_noisy - x)/σ²]. *)
Definition dsm_residual_spec (f : vec num → vec num) (xk ek : vec num)
    (sigma : num) : num :=
  let x_noisy := zip_with (λ a e, a + sigma * e)%S xk ek in
  let target := zip_with (λ n a, - ((n - a) / sq sigma))%S x_noisy xk in
  sq_norm (zip_with sub (f x_noisy) target).

(** Level [i] of a noise schedule. *)
Definition level (sigmae : vec num) (i : nat) : num :=
  default zero (sigmae !! i).

(** The unconditional model a conditional one becomes at a fixed level. *)
Definition at_level (m : ConditionalDataScoreModel num) (i : nat)
    : DataScoreModel num :=
  {| score := λ y, cond_score m y i; jacobian := λ _, [] |}.

(** [sigma ** 2] does not overflow.  On a Python float whose square is too
    large for a float, [**] raises [OverflowError]; the embedding writes
    [sq sigma] for [sigma ** 2] and has an infinite square there.  An
    infinite square is the one whose inverse is 0.0: the inverse of a finite
    float is never 0.0. *)
Definition square_in_range (sigma : num) : Prop :=
  is_zero (one / sq sigma)%S = false.

End LossSpecs.

(** ** The quantities the further properties are stated with *)

(** The only exception a computation can raise is [IndexError]. *)
Definition only_IndexError {A} (r : result A) : Prop :=
  ∀ e, r = Err e → e = IndexError.

Section FurtherSpecs.
Context {num : Type} `{Scalar num}.

(** The trapezoid increments along the bottom row and up the columns. *)
Definition increment_x (v : list (batch num)) (hx : num) (i : nat) : num :=
  (half * (field_x v 0 (i + 1) + field_x v 0 i) * hx)%S.
Definition increment_y (v : list (batch num)) (hy : num) (j ix : nat) : num :=
  (half * (field_y v (j + 1) ix + field_y v j ix) * hy)%S.

(** The sum of two fields, vector by vector. *)
Definition field_add (v w : list (batch num)) : list (batch num) :=
  zip_with (zip_with (zip_with add)) v w.

(** The first [n] rows and [m] columns of a field, [v[:n, :m]]. *)
Definition crop (n m : nat) (v : list (batch num)) : list (batch num) :=
  take m <$> take n v.

(** The denoising residual of one sample with the division by [sigma]
    multiplied out: [||sigma·f(x + eps·sigma) + eps||²]. *)
Definition scaled_residual (f : vec num → vec num) (xk ek : vec num)
    (sigma : num) : num :=
  let xn := zip_with add xk ((λ e, e * sigma)%S <$> ek) in
  sq_norm (zip_with (λ s e, sigma * s + e)%S (f xn) ek).

End FurtherSpecs.

(** ** The rationals as scalars *)

Global Instance Qc_scalar : Scalar Qc := {|
  zero := 0%Qc;
  one := 1%Qc;
  half := Q2Qc (1 # 2);
  add := Qcplus;
  sub := Qcminus;
  mul := Qcmult;
  div := Qcdiv;
  opp := Qcopp;
  of_Z := λ z, Q2Qc (inject_Z z);
  is_zero := λ v, Qc_eq_bool v 0%Qc;
  ltb := λ a b, match (a ?= b)%Qc with Lt => true | _ => false end;
|}.

(** The integer [z] as a rational scalar. *)
Definition qz (z : Z) : Qc := Q2Qc (inject_Z z).

(** ** Sample models and inputs over the rationals *)

(** The score model [f(x)_i = x_i²], whose Jacobian is [diag(2 x_i)]. *)
Definition square_model : DataScoreModel Qc := {|
  score := λ x, (λ v, v * v)%Qc <$> x;
  jacobian := λ x,
    imap (λ i xi,
      imap (λ d _, if decide (i = d) then (qz 2 * xi)%Qc else 0%Qc) x) x;
|}.

(** A conditional model that scales its input by the level index plus one. *)
Definition scale_model : ConditionalDataScoreModel Qc := {|
  cond_score := λ x i, (λ v, qz (Z.of_nat i + 1) * v)%Qc <$> x;
|}.

(** One point in three dimensions, and two points in two dimensions. *)
Definition batch_3d : batch Qc := [[qz 1; qz 2; qz 3]].
Definition batch_2d : batch Qc := [[qz 1; qz 2]; [qz 3; qz 4]].

(** A fixed draw of the noise: entry [(k, d)] is [k + d - 1]. *)
Definition sample_eps (k d : nat) : Qc := qz (Z.of_nat k + Z.of_nat d - 1).

(** A 2×3 field of 2-vectors, and the same field with the x-components of
    its upper row changed. *)
Definition field_2x3 : list (batch Qc) :=
  [ [ [qz 1; qz 2]; [qz 3; qz 4]; [qz 5; qz 6] ];
    [ [qz 7; qz 8]; [qz 9; qz 10]; [qz 11; qz 12] ] ].
Definition field_2x3' : list (batch Qc) :=
  [ [ [qz 1; qz 2]; [qz 3; qz 4]; [qz 5; qz 6] ];
    [ [qz 0; qz 8]; [qz (-4); qz 10]; [qz 100; qz 12] ] ].

(** A model whose scores have three components. *)
Definition three_model : DataScoreModel Qc := {|
  score := λ _, [qz 0; qz 0; qz 0];
  jacobian := λ _, [];
|}.

(** One point in one dimension. *)
Definition batch_1d : batch Qc := [[qz 1]].

(** A 2×3 field that differs from [field_2x3] in its last column only. *)
Definition field_2x3_far : list (batch Qc) :=
  [ [ [qz 1; qz 2]; [qz 3; qz 4]; [qz 50; qz 60] ];
    [ [qz 7; qz 8]; [qz 9; qz 10]; [qz 110; qz 120] ] ].

(** * Properties *)

(** ** The [result] monad and the loop combinator *)

Lemma mapM_Ok_fmap {A B} (f : A → result B) (g : A → B) (l : list A) :
  Forall (λ a, f a = Ok (g a)) l → mapM f l = Ok (g <$> l).
Proof.
  induction 1 as [|a l Ha _ IH]; [done|].
  simpl. rewrite Ha. simpl. by rewrite IH.
Qed.

Lemma mapM_ext_Forall {A B} (f g : A → result B) (l : list A) :
  Forall (λ a, f a = g a) l → mapM f l = mapM g l.
Proof.
  induction 1 as [|a l Ha _ IH]; [done|].
  simpl. by rewrite Ha, IH.
Qed.

Lemma for_ext {St} (l : list nat) (body1 body2 : nat → St → result St)
    (s : St) :
  (∀ i s', i ∈ l → body1 i s' = body2 i s') →
  for_ l body1 s = for_ l body2 s.
Proof.
  revert s. induction l as [|i l IH]; intros s Hext; [done|].
  simpl. rewrite Hext by left. destruct (body2 i s) as [s'|e]; [|done].
  simpl. apply IH. intros j s'' Hj. apply Hext. by right.
Qed.

(** A loop over [range(a, a + n)] that keeps an invariant runs to the end. *)
Lemma for_seq_invariant {St} (P : nat → St → Prop)
    (body : nat → St → result St) (a n : nat) (s : St) :
  P a s →
  (∀ i s', a ≤ i < a + n → P i s' → ∃ s'', body i s' = Ok s'' ∧ P (i + 1) s'') →
  ∃ s', for_ (seq a n) body s = Ok s' ∧ P (a + n) s'.
Proof.
  revert a s. induction n as [|n IH]; intros a s HP Hstep.
  - exists s. by rewrite Nat.add_0_r.
  - destruct (Hstep a s) as (s1 & Hb & HP1); [lia|done|].
    destruct (IH (a + 1) s1) as (s2 & Hf & HP2); [done| |].
    + intros i s' Hi. apply Hstep. lia.
    + exists s2. simpl. rewrite Hb. simpl.
      replace (S a) with (a + 1) by lia.
      split; [done|]. by replace (a + S n) with (a + 1 + n) by lia.
Qed.

(** ** Indexing rectangular tensors *)

Section Indexing.
Context {A : Type}.
Implicit Types (t : list (list A)) (row : list A).

Lemma getitem2_Ok t (i j : nat) (a : A) :
  getitem2 t i j = Ok a ↔ at2 t i j = Some a.
Proof.
  unfold getitem2, at2, getitem. destruct (t !! i) as [row|]; simpl.
  - destruct (row !! j); split; congruence.
  - split; congruence.
Qed.

Lemma shape2_lookup t (n m i : nat) row :
  shape2 t n m → t !! i = Some row → length row = m.
Proof.
  intros [_ Hrows] Hi. rewrite Forall_lookup in Hrows. by eapply Hrows.
Qed.

Lemma shape2_at2 t (n m i j : nat) :
  shape2 t n m → i < n → j < m → is_Some (at2 t i j).
Proof.
  intros Hsh Hi Hj. unfold at2.
  destruct (lookup_lt_is_Some_2 t i) as [row Hrow]; [by destruct Hsh as [-> _]|].
  rewrite Hrow. simpl. apply lookup_lt_is_Some_2.
  by rewrite (shape2_lookup _ _ _ _ _ Hsh Hrow).
Qed.

(** [t[i, j] = v] inside the bounds: the entry is written, every other
    entry and the shape are kept. *)
Lemma setitem2_spec t (n m i j : nat) (v : A) :
  shape2 t n m → i < n → j < m →
  ∃ t', setitem2 t i j v = Ok t' ∧ shape2 t' n m ∧
    at2 t' i j = Some v ∧
    ∀ i' j', (i' ≠ i ∨ j' ≠ j) → at2 t' i' j' = at2 t i' j'.
Proof.
  intros Hsh Hi Hj.
  destruct (lookup_lt_is_Some_2 t i) as [row Hrow]; [by destruct Hsh as [-> _]|].
  pose proof (shape2_lookup _ _ _ _ _ Hsh Hrow) as Hlen.
  unfold setitem2. rewrite Hrow. rewrite decide_True by lia.
  eexists. split; [done|]. split; [|split].
  - destruct Hsh as [Hn Hrows]. split; [by rewrite length_insert|].
    apply Forall_insert; [done|]. by rewrite length_insert.
  - unfold at2. rewrite list_lookup_insert_eq by (by eapply lookup_lt_Some).
    simpl. apply list_lookup_insert_eq. lia.
  - intros i' j' Hne. unfold at2.
    destruct (decide (i' = i)) as [->|Hii].
    + rewrite list_lookup_insert_eq by (by eapply lookup_lt_Some).
      rewrite Hrow. simpl. apply list_lookup_insert_ne.
      destruct Hne; congruence.
    + by rewrite list_lookup_insert_ne.
Qed.

Lemma setitem2_Err_rows t (j : nat) (v : A) :
  t = [] → setitem2 t 0 j v = Err IndexError.
Proof. by intros ->. Qed.

Lemma setitem2_Err_cols t row (i j : nat) (v : A) :
  t !! i = Some row → length row ≤ j → setitem2 t i j v = Err IndexError.
Proof.
  intros Hrow Hlen. unfold setitem2. rewrite Hrow.
  by rewrite decide_False by lia.
Qed.

End Indexing.

(** ** The walk of the integrator computes its closed form *)

Section Walk.
Context {num : Type} `{Scalar num}.
Implicit Types (u tx ty : batch num).

Lemma range_seq (a b : Z) :
  (0 ≤ a ≤ b)%Z → range a b = seq (Z.to_nat a) (Z.to_nat b - Z.to_nat a).
Proof. intros Hab. unfold range. f_equal. lia. Qed.

(** One column: from the bottom entry upwards. *)
Lemma walk_column_spec ty (tx0 : nat → num) (ty0 : nat → nat → num)
    (c : num) (n_y : Z) (nx ix : nat) u :
  (1 ≤ n_y)%Z → ix < nx →
  shape2 u (Z.to_nat n_y) nx →
  (∀ j, j + 1 < Z.to_nat n_y → at2 ty j ix = Some (ty0 j ix)) →
  at2 u 0 ix = Some (walk_row0 tx0 c ix) →
  ∃ u', walk_column ty n_y ix u = Ok u' ∧
    shape2 u' (Z.to_nat n_y) nx ∧
    (∀ iy ix', ix' ≠ ix → at2 u' iy ix' = at2 u iy ix') ∧
    (∀ iy, iy < Z.to_nat n_y →
       at2 u' iy ix = Some (walk_grid tx0 ty0 c iy ix)).
Proof.
  intros Hny Hix Hsh Hty Hbase. unfold walk_column.
  rewrite range_seq by lia. change (Z.to_nat 1) with 1.
  set (ny := Z.to_nat n_y) in *.
  destruct (for_seq_invariant
    (λ iy u', shape2 u' ny nx ∧
       (∀ iy' ix', ix' ≠ ix → at2 u' iy' ix' = at2 u iy' ix') ∧
       (∀ iy', iy' < iy → at2 u' iy' ix = Some (walk_grid tx0 ty0 c iy' ix)))
    (λ iy u', a ← getitem2 ty (iy - 1) ix;
              b ← getitem2 u' (iy - 1) ix;
              setitem2 u' iy ix (a + b)%S)
    1 (ny - 1) u) as (u' & Hrun & Hsh' & Hother & Hcol).
  - split; [done|]. split; [done|].
    intros iy' Hlt. by replace iy' with 0 by lia.
  - intros iy u1 Hiy (Hsh1 & Hother1 & Hcol1).
    pose proof (proj2 (getitem2_Ok ty (iy - 1) ix _) (Hty (iy - 1) ltac:(lia)))
      as ->.
    pose proof (proj2 (getitem2_Ok u1 (iy - 1) ix _) (Hcol1 (iy - 1) ltac:(lia)))
      as ->.
    simpl.
    destruct (setitem2_spec u1 ny nx iy ix
      (add (ty0 (iy - 1) ix) (walk_grid tx0 ty0 c (iy - 1) ix)))
      as (u2 & Hset & Hsh2 & Hnew & Hold); [done|lia|done|].
    exists u2. split; [done|]. split; [done|]. split.
    + intros iy' ix' Hne. rewrite Hold by (by right). by apply Hother1.
    + intros iy' Hlt. destruct (decide (iy' = iy)) as [->|Hne].
      * rewrite Hnew. by replace iy with (S (iy - 1)) at 3 by lia.
      * rewrite Hold by (by left). apply Hcol1. lia.
  - exists u'. split; [done|]. split; [done|]. split; [done|].
    intros iy Hlt. apply Hcol. lia.
Qed.

(** All columns, left to right. *)
Lemma walk_spec tx ty (tx0 : nat → num) (ty0 : nat → nat → num) (c : num)
    (n_x n_y : Z) u :
  (1 ≤ n_x)%Z → (1 ≤ n_y)%Z →
  shape2 u (Z.to_nat n_y) (Z.to_nat n_x) →
  (∀ i, i + 1 < Z.to_nat n_x → at2 tx 0 i = Some (tx0 i)) →
  (∀ j ix, j + 1 < Z.to_nat n_y → ix < Z.to_nat n_x →
     at2 ty j ix = Some (ty0 j ix)) →
  at2 u 0 0 = Some c →
  ∃ u', walk tx ty n_x n_y u = Ok u' ∧
    shape2 u' (Z.to_nat n_y) (Z.to_nat n_x) ∧
    ∀ iy ix, iy < Z.to_nat n_y → ix < Z.to_nat n_x →
      at2 u' iy ix = Some (walk_grid tx0 ty0 c iy ix).
Proof.
  intros Hnx Hny Hsh Htx Hty Hseed. unfold walk.
  rewrite range_seq by lia. change (Z.to_nat 0) with 0.
  rewrite Nat.sub_0_r.
  set (nx := Z.to_nat n_x) in *. set (ny := Z.to_nat n_y) in *.
  destruct (for_seq_invariant
    (λ ix u', shape2 u' ny nx ∧
       (∀ iy ix', ix' < ix → iy < ny →
          at2 u' iy ix' = Some (walk_grid tx0 ty0 c iy ix')) ∧
       (ix = 0 → at2 u' 0 0 = Some c))
    (λ ix u', u'' ← (if decide (0 < ix) then
                       a ← getitem2 tx 0 (ix - 1);
                       b ← getitem2 u' 0 (ix - 1);
                       setitem2 u' 0 ix (a + b)%S
                     else Ok u');
              walk_column ty n_y ix u'')
    0 nx u) as (u' & Hrun & Hsh' & Hdone & _).
  - split; [done|]. split; [|done]. intros; lia.
  - intros ix u1 Hix (Hsh1 & Hdone1 & Hseed1).
    assert (∃ u2, (if decide (0 < ix) then
                     a ← getitem2 tx 0 (ix - 1);
                     b ← getitem2 u1 0 (ix - 1);
                     setitem2 u1 0 ix (a + b)%S
                   else Ok u1) = Ok u2 ∧
              shape2 u2 ny nx ∧
              (∀ iy ix', ix' ≠ ix → at2 u2 iy ix' = at2 u1 iy ix') ∧
              at2 u2 0 ix = Some (walk_row0 tx0 c ix))
      as (u2 & -> & Hsh2 & Hother2 & Hbase2).
    { destruct (decide (0 < ix)) as [Hpos|Hzero].
      - pose proof (proj2 (getitem2_Ok tx 0 (ix - 1) _)
          (Htx (ix - 1) ltac:(lia))) as ->.
        pose proof (proj2 (getitem2_Ok u1 0 (ix - 1) _)
          (Hdone1 0 (ix - 1) ltac:(lia) ltac:(lia))) as ->.
        simpl.
        destruct (setitem2_spec u1 ny nx 0 ix
          (add (tx0 (ix - 1)) (walk_row0 tx0 c (ix - 1))))
          as (u2 & Hset & Hsh2 & Hnew & Hold); [done|lia|lia|].
        exists u2. split; [done|]. split; [done|]. split.
        + intros iy ix' Hne. apply Hold. by right.
        + rewrite Hnew. by replace ix with (S (ix - 1)) at 3 by lia.
      - exists u1. split; [done|]. split; [done|]. split; [done|].
        replace ix with 0 by lia. apply Hseed1. lia. }
    simpl.
    destruct (walk_column_spec ty tx0 ty0 c n_y nx ix u2)
      as (u3 & Hcol & Hsh3 & Hother3 & Hcol3); [done|lia|done| |done|].
    { intros j Hj. apply Hty; [done|lia]. }
    exists u3. split; [done|]. split; [done|]. split; [|lia].
    intros iy ix' Hlt Hiy. destruct (decide (ix' = ix)) as [->|Hne].
    + by apply Hcol3.
    + rewrite Hother3, Hother2 by done. apply Hdone1; [lia|done].
  - exists u'. split; [done|]. split; [done|].
    intros iy ix Hiy Hix. by apply Hdone.
Qed.

End Walk.

(** ** The trapezoid increments, entry by entry *)

Section Trapezoid.
Context {num : Type} `{Scalar num}.
Implicit Types (v : list (batch num)) (t : batch num).

Lemma at2_fmap {A B} (f : A → B) (t : list (list A)) (i j : nat) :
  at2 (fmap (M:=list) f <$> t) i j = f <$> at2 t i j.
Proof.
  unfold at2. rewrite list_lookup_fmap. destruct (t !! i) as [row|]; [|done].
  simpl. by rewrite list_lookup_fmap.
Qed.

Lemma at2_zip_with {A B C} (g : A → B → C) (a : list (list A))
    (b : list (list B)) (i j : nat) :
  at2 (zip_with (zip_with g) a b) i j =
  x ← at2 a i j; y ← at2 b i j; Some (g x y).
Proof.
  unfold at2. rewrite lookup_zip_with.
  destruct (a !! i) as [ra|]; [|done]. simpl.
  destruct (b !! i) as [rb|]; simpl.
  - by rewrite lookup_zip_with.
  - by destruct (ra !! j).
Qed.

Lemma at2_tail_cols {A} (t : list (list A)) (i j : nat) :
  at2 (tail_slice <$> t) i j = at2 t i (j + 1).
Proof.
  unfold at2, tail_slice. rewrite list_lookup_fmap.
  destruct (t !! i) as [row|]; [|done]. simpl.
  rewrite lookup_drop. f_equal. lia.
Qed.

Lemma at2_init_cols {A} (t : list (list A)) (n m i j : nat) :
  shape2 t n m → j + 1 < m → at2 (init_slice <$> t) i j = at2 t i j.
Proof.
  intros Hsh Hj. unfold at2, init_slice. rewrite list_lookup_fmap.
  destruct (t !! i) as [row|] eqn:Hrow; [|done]. simpl.
  rewrite (shape2_lookup _ _ _ _ _ Hsh Hrow). apply lookup_take_lt. lia.
Qed.

Lemma at2_tail_rows {A} (t : list (list A)) (i j : nat) :
  at2 (tail_slice t) i j = at2 t (i + 1) j.
Proof.
  unfold at2, tail_slice. rewrite lookup_drop.
  by replace (1 + i) with (i + 1) by lia.
Qed.

Lemma at2_init_rows {A} (t : list (list A)) (i j : nat) :
  i + 1 < length t → at2 (init_slice t) i j = at2 t i j.
Proof.
  intros Hi. unfold at2, init_slice. rewrite lookup_take_lt by lia. done.
Qed.

(** On a tensor whose innermost vectors are long enough, [t[..., c]] raises
    nothing and reads component [c] everywhere. *)
Lemma select_last_Ok v (c : nat) :
  Forall (Forall (λ x : vec num, c < length x)) v →
  select_last v c =
  Ok (fmap (M:=list) (λ x : vec num, default zero (x !! c)) <$> v).
Proof.
  intros Hv. unfold select_last. apply mapM_Ok_fmap.
  eapply Forall_impl; [exact Hv|]. intros row Hrow. simpl.
  apply mapM_Ok_fmap. eapply Forall_impl; [exact Hrow|].
  intros x Hx. simpl. unfold getitem.
  by destruct (lookup_lt_is_Some_2 x c Hx) as [a ->].
Qed.

Lemma shape3_components v (n m d c : nat) :
  shape3 v n m d → c < d → Forall (Forall (λ x : vec num, c < length x)) v.
Proof.
  intros [_ Hrows] Hc. eapply Forall_impl; [exact Hrows|].
  intros row [_ Hrow]. eapply Forall_impl; [exact Hrow|].
  intros x Hx. simpl in Hx. lia.
Qed.

Lemma shape3_shape2 v (n m d : nat) : shape3 v n m d → shape2 v n m.
Proof.
  intros [Hn Hrows]. split; [done|].
  eapply Forall_impl; [exact Hrows|]. by intros row [? _].
Qed.

Lemma Forall_tail_slice {A} (P : A → Prop) (l : list A) :
  Forall P l → Forall P (tail_slice l).
Proof. apply Forall_drop. Qed.

Lemma Forall_init_slice {A} (P : A → Prop) (l : list A) :
  Forall P l → Forall P (init_slice l).
Proof. apply Forall_take. Qed.

Lemma field_x_at2 v (iy ix : nat) (x : vec num) :
  at2 v iy ix = Some x → default zero (x !! 0) = field_x v iy ix.
Proof. intros Hx. unfold field_x, at3. by rewrite Hx. Qed.

Lemma field_y_at2 v (iy ix : nat) (x : vec num) :
  at2 v iy ix = Some x → default zero (x !! 1) = field_y v iy ix.
Proof. intros Hx. unfold field_y, at3. by rewrite Hx. Qed.

Lemma trapezoid_x_spec v (n m : nat) (hx : num) :
  shape3 v n m 2 →
  ∃ tx, trapezoid_x v hx = Ok tx ∧
    ∀ iy i, iy < n → i + 1 < m →
      at2 tx iy i =
      Some (half * (field_x v iy (i + 1) + field_x v iy i) * hx)%S.
Proof.
  intros Hsh. pose proof (shape3_components v n m 2 0 Hsh ltac:(lia)) as Hc.
  pose proof (shape3_shape2 _ _ _ _ Hsh) as Hsh2.
  unfold trapezoid_x.
  rewrite (select_last_Ok (tail_slice <$> v)), (select_last_Ok (init_slice <$> v)).
  - simpl. eexists. split; [done|]. intros iy i Hiy Hi.
    unfold tmul_scalar, scalar_tmul, tadd2. rewrite !at2_fmap, at2_zip_with.
    rewrite !at2_fmap, at2_tail_cols, (at2_init_cols v n m) by done.
    destruct (shape2_at2 v n m iy (i + 1)) as [x1 Hx1]; [done|done|lia|].
    destruct (shape2_at2 v n m iy i) as [x0 Hx0]; [done|done|lia|].
    rewrite Hx1, Hx0. simpl.
    by rewrite (field_x_at2 _ _ _ _ Hx1), (field_x_at2 _ _ _ _ Hx0).
  - apply Forall_fmap. eapply Forall_impl; [exact Hc|].
    intros row Hrow. by apply Forall_init_slice.
  - apply Forall_fmap. eapply Forall_impl; [exact Hc|].
    intros row Hrow. by apply Forall_tail_slice.
Qed.

Lemma trapezoid_y_spec v (n m : nat) (hy : num) :
  shape3 v n m 2 →
  ∃ ty, trapezoid_y v hy = Ok ty ∧
    ∀ j ix, j + 1 < n → ix < m →
      at2 ty j ix =
      Some (half * (field_y v (j + 1) ix + field_y v j ix) * hy)%S.
Proof.
  intros Hsh. pose proof (shape3_components v n m 2 1 Hsh ltac:(lia)) as Hc.
  pose proof (shape3_shape2 _ _ _ _ Hsh) as Hsh2.
  unfold trapezoid_y.
  rewrite (select_last_Ok (tail_slice v)), (select_last_Ok (init_slice v))
    by (by apply Forall_init_slice || by apply Forall_tail_slice).
  simpl. eexists. split; [done|]. intros j ix Hj Hix.
  unfold tmul_scalar, scalar_tmul, tadd2. rewrite !at2_fmap, at2_zip_with.
  rewrite !at2_fmap, at2_tail_rows, at2_init_rows
    by (destruct Hsh2 as [-> _]; lia).
  destruct (shape2_at2 v n m (j + 1) ix) as [x1 Hx1]; [done|lia|done|].
  destruct (shape2_at2 v n m j ix) as [x0 Hx0]; [done|lia|done|].
  rewrite Hx1, Hx0. simpl.
  by rewrite (field_y_at2 _ _ _ _ Hx1), (field_y_at2 _ _ _ _ Hx0).
Qed.

End Trapezoid.

(** ** The integrator *)

Section IntegratorSpec.
Context {num : Type} `{Scalar num}.
Implicit Types (v : list (batch num)) (u : batch num).

Lemma new_zeros_Ok (n m : Z) :
  (0 ≤ n)%Z → (0 ≤ m)%Z →
  ∃ u, new_zeros n m = Ok u ∧ shape2 u (Z.to_nat n) (Z.to_nat m).
Proof.
  intros Hn Hm. unfold new_zeros. rewrite decide_False by lia.
  eexists. split; [done|]. split.
  - by rewrite length_replicate.
  - apply Forall_replicate. by rewrite length_replicate.
Qed.

Lemma grid_spacing_Ok (lim : Z * Z) (n : Z) :
  n ≠ 1%Z →
  grid_spacing lim n = Ok (of_Z (lim.2 - lim.1) / of_Z (n - 1))%S.
Proof.
  intros Hn. unfold grid_spacing, pydiv_int. by rewrite decide_False by lia.
Qed.

Lemma grid_spacing_Err (lim : Z * Z) :
  grid_spacing lim 1 = Err ZeroDivisionError.
Proof. done. Qed.

(** The grid returned on a well-shaped field is the closed form of the
    walk over the trapezoid increments. *)
Lemma integrate_scores_rect2d_closed_form v (xlim ylim : Z * Z)
    (n_x n_y : Z) (c : num) :
  (2 ≤ n_x)%Z → (2 ≤ n_y)%Z →
  shape3 v (Z.to_nat n_y) (Z.to_nat n_x) 2 →
  let hx := (of_Z (xlim.2 - xlim.1) / of_Z (n_x - 1))%S in
  let hy := (of_Z (ylim.2 - ylim.1) / of_Z (n_y - 1))%S in
  let tx0 := λ i, (half * (field_x v 0 (i + 1) + field_x v 0 i) * hx)%S in
  let ty0 :=
    λ j ix, (half * (field_y v (j + 1) ix + field_y v j ix) * hy)%S in
  ∃ u, integrate_scores_rect2d v xlim ylim n_x n_y c = Ok u ∧
    shape2 u (Z.to_nat n_y) (Z.to_nat n_x) ∧
    ∀ iy ix, iy < Z.to_nat n_y → ix < Z.to_nat n_x →
      at2 u iy ix = Some (walk_grid tx0 ty0 c iy ix).
Proof.
  intros Hnx Hny Hsh hx hy tx0 ty0. unfold integrate_scores_rect2d.
  destruct (new_zeros_Ok n_y n_x) as (u0 & -> & Hsh0); [lia|lia|].
  rewrite !grid_spacing_Ok by lia. simpl. fold hx hy.
  destruct (trapezoid_x_spec v _ _ hx Hsh) as (tx & -> & Htx).
  destruct (trapezoid_y_spec v _ _ hy Hsh) as (ty & -> & Hty).
  simpl.
  destruct (setitem2_spec u0 _ _ 0 0 c Hsh0) as (u1 & -> & Hsh1 & Hseed & _);
    [lia|lia|].
  simpl. apply (walk_spec tx ty tx0 ty0 c n_x n_y u1); try done; try lia.
  intros i Hi. apply Htx; lia.
Qed.

End IntegratorSpec.

Section IntegratorClaims.
Context {num : Type} `{Scalar num}.
Implicit Types (v : list (batch num)) (u : batch num).

(** C2. On an n_y×n_x×2 field with n_x ≥ 2 and n_y ≥ 2 the integrator
    returns an n_y×n_x grid U with U[0,0] = c, with
    U[0,ix] = U[0,ix-1] + 0.5·(V_x[0,ix] + V_x[0,ix-1])·hx along the bottom
    row and U[iy,ix] = U[iy-1,ix] + 0.5·(V_y[iy,ix] + V_y[iy-1,ix])·hy up
    every column, where hx = (x1-x0)/(n_x-1) and hy = (y1-y0)/(n_y-1).
    The code adds the increment on the left, so the order of the claim
    needs addition to commute. *)
Theorem integrate_scores_rect2d_trapezoid v (xlim ylim : Z * Z)
    (n_x n_y : Z) (c : num) :
  Comm (=) (add (num:=num)) →
  (2 ≤ n_x)%Z → (2 ≤ n_y)%Z →
  shape3 v (Z.to_nat n_y) (Z.to_nat n_x) 2 →
  let hx := (of_Z (xlim.2 - xlim.1) / of_Z (n_x - 1))%S in
  let hy := (of_Z (ylim.2 - ylim.1) / of_Z (n_y - 1))%S in
  ∃ u, integrate_scores_rect2d v xlim ylim n_x n_y c = Ok u ∧
    shape2 u (Z.to_nat n_y) (Z.to_nat n_x) ∧
    grid_at u 0 0 = c ∧
    (∀ ix, 1 ≤ ix < Z.to_nat n_x →
       grid_at u 0 ix =
       (grid_at u 0 (ix - 1) +
        half * (field_x v 0 ix + field_x v 0 (ix - 1)) * hx)%S) ∧
    (∀ iy ix, 1 ≤ iy < Z.to_nat n_y → ix < Z.to_nat n_x →
       grid_at u iy ix =
       (grid_at u (iy - 1) ix +
        half * (field_y v iy ix + field_y v (iy - 1) ix) * hy)%S).
Proof.
  intros Hcomm Hnx Hny Hsh hx hy.
  destruct (integrate_scores_rect2d_closed_form v xlim ylim n_x n_y c
    Hnx Hny Hsh) as (u & Hrun & Hshu & Hu).
  fold hx hy in Hu. exists u. split; [done|]. split; [done|].
  assert (Hat : ∀ iy ix, iy < Z.to_nat n_y → ix < Z.to_nat n_x →
    grid_at u iy ix =
    walk_grid
      (λ i, (half * (field_x v 0 (i + 1) + field_x v 0 i) * hx)%S)
      (λ j ix, (half * (field_y v (j + 1) ix + field_y v j ix) * hy)%S)
      c iy ix).
  { intros iy ix Hiy Hix. unfold grid_at. by rewrite Hu. }
  split; [|split].
  - rewrite Hat by lia. done.
  - intros ix Hix. rewrite !Hat by lia.
    destruct ix as [|i]; [lia|]. simpl.
    rewrite Nat.sub_0_r, Nat.add_1_r. apply (comm add).
  - intros iy ix Hiy Hix. rewrite !Hat by lia.
    destruct iy as [|j]; [lia|]. simpl.
    rewrite Nat.sub_0_r, Nat.add_1_r. apply (comm add).
Qed.

End IntegratorClaims.

Section IntegratorFailure.
Context {num : Type} `{Scalar num}.
Implicit Types (v : list (batch num)) (u : batch num).

Lemma setitem2_new_zeros_Err (n m : Z) (u : batch num) (c : num) :
  new_zeros n m = Ok u → (n < 1 ∨ m < 1)%Z →
  setitem2 u 0 0 c = Err IndexError.
Proof.
  unfold new_zeros. case_decide as Hneg; [done|]. intros [= <-] Hsmall.
  destruct (decide (n < 1)%Z) as [Hn|Hn].
  - apply setitem2_Err_rows. by replace (Z.to_nat n) with 0 by lia.
  - apply (setitem2_Err_cols _ (replicate (Z.to_nat m) zero)).
    + apply lookup_replicate_2. lia.
    + rewrite length_replicate. lia.
Qed.

(** C9. The spacing of an axis is [(max - min) / (count - 1)], a
    [ZeroDivisionError] when the count is 1; and a call with a count below
    2 in either axis raises an exception instead of returning a grid. *)
Theorem integrate_scores_rect2d_degenerate v (xlim ylim : Z * Z)
    (n_x n_y : Z) (c : num) :
  (∀ (lim : Z * Z) (n : Z),
     grid_spacing lim n =
     if decide (n = 1%Z) then Err ZeroDivisionError
     else Ok (of_Z (lim.2 - lim.1) / of_Z (n - 1))%S) ∧
  ((n_x < 2 ∨ n_y < 2)%Z →
   is_Err (integrate_scores_rect2d v xlim ylim n_x n_y c)).
Proof.
  split.
  - intros lim n. case_decide as Hn.
    + subst n. apply grid_spacing_Err.
    + by apply grid_spacing_Ok.
  - intros Hsmall. unfold integrate_scores_rect2d.
    destruct (new_zeros n_y n_x) as [u0|e] eqn:Hu0; [|by exists e].
    simpl. destruct (decide (n_x = 1%Z)) as [->|Hx1].
    { rewrite grid_spacing_Err. by eexists. }
    rewrite (grid_spacing_Ok xlim) by done. simpl.
    destruct (decide (n_y = 1%Z)) as [->|Hy1].
    { rewrite grid_spacing_Err. by eexists. }
    rewrite (grid_spacing_Ok ylim) by done. simpl.
    destruct (trapezoid_x v _) as [tx|e]; [|by exists e]. simpl.
    destruct (trapezoid_y v _) as [ty|e]; [|by exists e]. simpl.
    rewrite (setitem2_new_zeros_Err n_y n_x u0 c Hu0) by lia.
    by eexists.
Qed.

End IntegratorFailure.

(** ** What the integrator reads from the field *)

Section IntegratorReads.
Context {num : Type} `{Scalar num}.
Implicit Types (v : list (batch num)) (u t : batch num).

Lemma component_tail_rows (c : nat) v :
  component c (tail_slice v) = tail_slice (component c v).
Proof. unfold component, tail_slice. by rewrite fmap_drop. Qed.

Lemma component_init_rows (c : nat) v :
  component c (init_slice v) = init_slice (component c v).
Proof. unfold component, init_slice. by rewrite fmap_take, length_fmap. Qed.

Lemma component_tail_cols (c : nat) v :
  component c (tail_slice <$> v) = tail_slice <$> component c v.
Proof.
  unfold component, tail_slice. rewrite <- !list_fmap_compose.
  apply list_fmap_ext. intros _ row _. unfold compose. by rewrite fmap_drop.
Qed.

Lemma component_init_cols (c : nat) v :
  component c (init_slice <$> v) = init_slice <$> component c v.
Proof.
  unfold component, init_slice. rewrite <- !list_fmap_compose.
  apply list_fmap_ext. intros _ row _. unfold compose.
  by rewrite length_fmap, fmap_take.
Qed.

Lemma at2_component (c : nat) v (iy ix : nat) :
  at2 (component c v) iy ix =
  (λ x : vec num, default zero (x !! c)) <$> at2 v iy ix.
Proof. apply at2_fmap. Qed.

Lemma shape2_component (c : nat) v (n m : nat) :
  shape2 v n m → shape2 (component c v) n m.
Proof.
  intros [Hn Hrows]. unfold component. split; [by rewrite length_fmap|].
  apply Forall_fmap. eapply Forall_impl; [exact Hrows|].
  intros row Hrow. simpl. by rewrite length_fmap.
Qed.

(** Two tensors of one shape with the same entries are the same tensor. *)
Lemma shape2_ext {A} (a b : list (list A)) (n m : nat) :
  shape2 a n m → shape2 b n m →
  (∀ i j, i < n → j < m → at2 a i j = at2 b i j) → a = b.
Proof.
  intros Ha Hb Hent. apply (list_eq_same_length _ _ n);
    [by destruct Hb|by destruct Ha|].
  intros i ra rb Hi Hra Hrb.
  apply (list_eq_same_length _ _ m);
    [exact (shape2_lookup b n m i rb Hb Hrb)
    |exact (shape2_lookup a n m i ra Ha Hra)|].
  intros j x y Hj Hx Hy. specialize (Hent i j Hi Hj).
  unfold at2 in Hent. rewrite Hra, Hrb in Hent. simpl in Hent. congruence.
Qed.

Lemma trapezoid_x_component v (n m : nat) (hx : num) :
  shape3 v n m 2 →
  trapezoid_x v hx =
  Ok (tmul_scalar (scalar_tmul half
        (tadd2 (tail_slice <$> component 0 v) (init_slice <$> component 0 v)))
        hx).
Proof.
  intros Hsh. pose proof (shape3_components v n m 2 0 Hsh ltac:(lia)) as Hc.
  unfold trapezoid_x.
  rewrite (select_last_Ok (tail_slice <$> v)), (select_last_Ok (init_slice <$> v)).
  - simpl. fold (component 0 (tail_slice <$> v)).
    fold (component 0 (init_slice <$> v)).
    by rewrite component_tail_cols, component_init_cols.
  - apply Forall_fmap. eapply Forall_impl; [exact Hc|].
    intros row Hrow. by apply Forall_init_slice.
  - apply Forall_fmap. eapply Forall_impl; [exact Hc|].
    intros row Hrow. by apply Forall_tail_slice.
Qed.

Lemma trapezoid_y_component v (n m : nat) (hy : num) :
  shape3 v n m 2 →
  trapezoid_y v hy =
  Ok (tmul_scalar (scalar_tmul half
        (tadd2 (tail_slice (component 1 v)) (init_slice (component 1 v))))
        hy).
Proof.
  intros Hsh. pose proof (shape3_components v n m 2 1 Hsh ltac:(lia)) as Hc.
  unfold trapezoid_y.
  rewrite (select_last_Ok (tail_slice v)), (select_last_Ok (init_slice v))
    by (by apply Forall_init_slice || by apply Forall_tail_slice).
  simpl. fold (component 1 (tail_slice v)). fold (component 1 (init_slice v)).
  by rewrite component_tail_rows, component_init_rows.
Qed.

(** The bottom row of the x-increments is a function of the bottom row of
    the x-components. *)
Lemma trapezoid_x_row0 (a : batch num) (hx : num) :
  tmul_scalar (scalar_tmul half
    (tadd2 (tail_slice <$> a) (init_slice <$> a))) hx !! 0 =
  (λ row : vec num,
     (λ x, x * hx)%S <$> ((λ x, half * x)%S <$>
       zip_with add (tail_slice row) (init_slice row))) <$> a !! 0.
Proof.
  unfold tmul_scalar, scalar_tmul, tadd2.
  rewrite !list_lookup_fmap, lookup_zip_with, !list_lookup_fmap.
  by destruct (a !! 0).
Qed.

Lemma getitem2_row (t t' : batch num) (i j : nat) :
  t !! i = t' !! i → getitem2 t i j = getitem2 t' i j.
Proof. intros Hrow. unfold getitem2, getitem. by rewrite Hrow. Qed.

(** The walk reads the x-increments in their bottom row only. *)
Lemma walk_reads_row0 (tx tx' ty : batch num) (n_x n_y : Z) u :
  tx !! 0 = tx' !! 0 → walk tx ty n_x n_y u = walk tx' ty n_x n_y u.
Proof.
  intros Hrow. unfold walk. apply for_ext. intros ix u' _.
  case_decide; [|done]. by rewrite (getitem2_row tx tx' 0 (ix - 1) Hrow).
Qed.

End IntegratorReads.

Section IntegratorNoninterference.
Context {num : Type} `{Scalar num}.
Implicit Types (v : list (batch num)) (u t : batch num).

Lemma component_y_ext v v' (n m : nat) :
  shape3 v n m 2 → shape3 v' n m 2 →
  (∀ iy ix, iy < n → ix < m → field_y v iy ix = field_y v' iy ix) →
  component 1 v = component 1 v'.
Proof.
  intros Hsh Hsh' Hy.
  pose proof (shape3_shape2 _ _ _ _ Hsh) as Hsh2.
  pose proof (shape3_shape2 _ _ _ _ Hsh') as Hsh2'.
  apply (shape2_ext _ _ n m); [by apply shape2_component..|].
  intros i j Hi Hj. rewrite !at2_component.
  destruct (shape2_at2 v n m i j Hsh2 Hi Hj) as [x Hx].
  destruct (shape2_at2 v' n m i j Hsh2' Hi Hj) as [x' Hx'].
  rewrite Hx, Hx'. simpl.
  rewrite (field_y_at2 _ _ _ _ Hx), (field_y_at2 _ _ _ _ Hx').
  f_equal. by apply Hy.
Qed.

Lemma component_x_row0_ext v v' (n m : nat) :
  shape3 v n m 2 → shape3 v' n m 2 →
  (∀ ix, ix < m → field_x v 0 ix = field_x v' 0 ix) →
  component 0 v !! 0 = component 0 v' !! 0.
Proof.
  intros Hsh Hsh' Hx0.
  pose proof (shape3_shape2 _ _ _ _ Hsh) as Hsh2.
  pose proof (shape3_shape2 _ _ _ _ Hsh') as Hsh2'.
  unfold component. rewrite !list_lookup_fmap.
  destruct (v !! 0) as [row|] eqn:Hrow, (v' !! 0) as [row'|] eqn:Hrow'; simpl.
  - f_equal.
    apply (list_eq_same_length _ _ m);
      [rewrite length_fmap; exact (shape2_lookup v' n m 0 row' Hsh2' Hrow')
      |rewrite length_fmap; exact (shape2_lookup v n m 0 row Hsh2 Hrow)|].
    intros j a b Hj. rewrite !list_lookup_fmap.
    destruct (row !! j) as [x|] eqn:Hx; [|done].
    destruct (row' !! j) as [x'|] eqn:Hx'; [|done].
    simpl. intros [= <-] [= <-].
    assert (at2 v 0 j = Some x) as Hat by (unfold at2; by rewrite Hrow).
    assert (at2 v' 0 j = Some x') as Hat' by (unfold at2; by rewrite Hrow').
    rewrite (field_x_at2 _ _ _ _ Hat), (field_x_at2 _ _ _ _ Hat').
    by apply Hx0.
  - apply lookup_lt_Some in Hrow. apply lookup_ge_None in Hrow'.
    destruct Hsh2 as [Hn _], Hsh2' as [Hn' _]. lia.
  - apply lookup_lt_Some in Hrow'. apply lookup_ge_None in Hrow.
    destruct Hsh2 as [Hn _], Hsh2' as [Hn' _]. lia.
  - done.
Qed.

(** C10. Two fields of one shape that agree on the y-component everywhere
    and on the x-component in the bottom row are integrated to the same
    result, for the same extents, counts and constant: the x-components of
    the rows above the bottom row are never used. *)
Theorem integrate_scores_rect2d_ignores_upper_x v v' (n m : nat)
    (xlim ylim : Z * Z) (n_x n_y : Z) (c : num) :
  shape3 v n m 2 → shape3 v' n m 2 →
  (∀ iy ix, iy < n → ix < m → field_y v iy ix = field_y v' iy ix) →
  (∀ ix, ix < m → field_x v 0 ix = field_x v' 0 ix) →
  integrate_scores_rect2d v xlim ylim n_x n_y c =
  integrate_scores_rect2d v' xlim ylim n_x n_y c.
Proof.
  intros Hsh Hsh' Hy Hx0. unfold integrate_scores_rect2d.
  destruct (new_zeros n_y n_x) as [u0|e]; [|done]. simpl.
  destruct (grid_spacing xlim n_x) as [hx|e]; [|done]. simpl.
  destruct (grid_spacing ylim n_y) as [hy|e]; [|done]. simpl.
  rewrite (trapezoid_x_component v n m), (trapezoid_x_component v' n m),
    (trapezoid_y_component v n m), (trapezoid_y_component v' n m) by done.
  simpl. rewrite (component_y_ext v v' n m Hsh Hsh' Hy).
  destruct (setitem2 u0 0 0 c) as [u1|e]; [|done]. simpl.
  apply walk_reads_row0. rewrite !trapezoid_x_row0.
  by rewrite (component_x_row0_ext v v' n m Hsh Hsh' Hx0).
Qed.

End IntegratorNoninterference.

(** ** The two Jacobian-trace strategies *)

Section TraceStrategies.
Context {num : Type} `{Scalar num}.
Implicit Types (m : DataScoreModel num) (x : batch num).

Lemma getitem_lookup {A} (l : list A) (i : nat) :
  getitem l i = from_option Ok (Err IndexError) (l !! i).
Proof. unfold getitem. by destruct (l !! i). Qed.

(** Entry [(k, i, k, d)] of the full Jacobian is entry [(i, d)] of the
    Jacobian at [x[k]]. *)
Lemma full_jacobian_entry m x (k i d : nat) (xk : vec num) :
  x !! k = Some xk →
  getitem4 (full_jacobian m x) k i k d = getitem2 (jacobian m xk) i d.
Proof.
  intros Hk. unfold getitem4, getitem3, getitem2, full_jacobian.
  rewrite !getitem_lookup, list_lookup_imap, Hk. simpl.
  rewrite getitem_lookup, list_lookup_fmap.
  destruct (jacobian m xk !! i) as [Ji|]; [|done]. simpl.
  rewrite getitem_lookup, list_lookup_imap, Hk. simpl.
  by rewrite decide_True.
Qed.

(** Entry [(k, i, d)] of the batched Jacobian for [n] output dimensions is
    entry [(i, d)] of the Jacobian at [x[k]], when [i < n]. *)
Lemma batched_jacobian_entry m x (n k i d : nat) (xk : vec num) :
  x !! k = Some xk → i < n →
  getitem3 (batched_jacobian m x n) k i d = getitem2 (jacobian m xk) i d.
Proof.
  intros Hk Hi. unfold getitem3, getitem2, batched_jacobian.
  rewrite !getitem_lookup, list_lookup_fmap, Hk. simpl.
  by rewrite !getitem_lookup, lookup_take_lt.
Qed.

Lemma mapM_seq_ext {B} (f g : nat → result B) (n : nat) :
  (∀ k, k < n → f k = g k) → mapM f (seq 0 n) = mapM g (seq 0 n).
Proof.
  intros Hfg. apply mapM_ext_Forall, Forall_seq. intros k Hk. apply Hfg. lia.
Qed.

Lemma ism_loss_fast_tr_eq m x : ism_loss_fast_tr m x = ism_loss_tr m x.
Proof.
  unfold ism_loss_tr, ism_loss_fast_tr.
  assert (Hd : ∀ i, i < 2 →
    mapM (λ k, getitem3 (batched_jacobian m x 2) k i i) (seq 0 (length x)) =
    mapM (λ k, getitem4 (full_jacobian m x) k i k i) (seq 0 (length x))).
  { intros i Hi. apply mapM_seq_ext. intros k Hk.
    destruct (lookup_lt_is_Some_2 x k Hk) as [xk Hxk].
    by rewrite (full_jacobian_entry m x k i i xk Hxk),
      (batched_jacobian_entry m x 2 k i i xk Hxk Hi). }
  by rewrite (Hd 0), (Hd 1) by lia.
Qed.

(** C7. The exact strategy and the fast one read the same per-sample traces,
    so the implicit score matching loss is the same whichever strategy the
    loss object was constructed with. *)
Theorem ism_loss_strategies_agree m x :
  ism_loss_tr m x = ism_loss_fast_tr m x ∧
  ism_loss m x = ism_loss_fast m x ∧
  ISMLoss_forward true m x = ISMLoss_forward false m x.
Proof.
  assert (Htr : ism_loss_tr m x = ism_loss_fast_tr m x)
    by (by rewrite ism_loss_fast_tr_eq).
  assert (Hloss : ism_loss m x = ism_loss_fast m x).
  { unfold ism_loss, ism_loss_fast. by rewrite Htr. }
  split; [done|]. split; [done|]. unfold ISMLoss_forward. by rewrite Hloss.
Qed.

End TraceStrategies.

(** ** The trace the losses read, in two dimensions *)

Section TraceTwoDimensions.
Context {num : Type} `{Scalar num}.
Implicit Types (m : DataScoreModel num) (x : batch num).

Lemma mapM_fmap_compose {A B C} (f : B → result C) (h : A → B) (l : list A) :
  mapM f (h <$> l) = mapM (f ∘ h) l.
Proof.
  induction l as [|a l IH]; [done|]. simpl.
  change (list_fmap A B h l) with (h <$> l). by rewrite IH.
Qed.

(** A comprehension over [range(B)] that reads row [k] of the batch. *)
Lemma mapM_range_batch {A B} (f : nat → result B) (g : A → B) (l : list A) :
  (∀ k a, l !! k = Some a → f k = Ok (g a)) →
  mapM f (seq 0 (length l)) = Ok (g <$> l).
Proof.
  revert f. induction l as [|a l IH]; intros f Hf; [done|].
  simpl. rewrite (Hf 0 a) by done. simpl.
  rewrite <- fmap_S_seq, mapM_fmap_compose, (IH (f ∘ S)); [done|].
  intros k b Hk. apply (Hf (S k) b Hk).
Qed.

Lemma trace_2x2 (j : batch num) :
  RightId (=) zero (add (num:=num)) →
  shape2 j 2 2 → trace j = diag01 j.
Proof.
  intros Hid [Hlen Hrows].
  destruct j as [|r0 [|r1 [|? ?]]]; try done.
  unfold trace, diagonal, diag01, at2. simpl. by rewrite (right_id zero add).
Qed.

Lemma full_jacobian_diagonal m x (D i : nat) :
  i < D → jacobian_shape m x D →
  mapM (λ k, getitem4 (full_jacobian m x) k i k i) (seq 0 (length x)) =
  Ok ((λ xk, default zero (at2 (jacobian m xk) i i)) <$> x).
Proof.
  intros Hi Hsh. unfold jacobian_shape in Hsh. rewrite Forall_lookup in Hsh.
  apply mapM_range_batch. intros k xk Hk.
  rewrite (full_jacobian_entry m x k i i xk Hk).
  destruct (Hsh k xk Hk) as [_ HJ].
  destruct (shape2_at2 _ D D i i HJ) as [a Ha]; [lia..|].
  rewrite Ha. by apply getitem2_Ok.
Qed.

Lemma ism_loss_tr_diag01 m x (D : nat) :
  2 ≤ D → jacobian_shape m x D →
  ism_loss_tr m x = Ok ((λ xk, diag01 (jacobian m xk)) <$> x).
Proof.
  intros HD Hsh. unfold ism_loss_tr.
  rewrite (full_jacobian_diagonal m x D 0) by (done || lia). simpl.
  rewrite (full_jacobian_diagonal m x D 1) by (done || lia). simpl.
  by rewrite zip_with_fmap_l, zip_with_fmap_r, zip_with_diag.
Qed.

End TraceTwoDimensions.

(** ** The rationals are exact *)

Lemma Qc_is_zero_spec (v : Qc) : is_zero v = true ↔ v = 0%Qc.
Proof.
  simpl. split.
  - apply Qc_eq_bool_correct.
  - intros ->. done.
Qed.

Global Instance Qc_exact : ExactArithmetic Qc.
Proof.
  split.
  - destruct Qcft as [HR H10 Hdiv Hinv]. split; try done.
    + intros p q. simpl. unfold Qcdiv. by rewrite Qcmult_1_l.
    + intros p Hp. simpl. unfold Qcdiv. rewrite Qcmult_1_l.
      by apply Qcmult_inv_l.
  - apply Qc_is_zero_spec.
  - intros v. simpl. by rewrite (proj1 (Qceq_alt v v) eq_refl).
Qed.

Global Instance Qc_add_comm : Comm (=) (add (num:=Qc)).
Proof. intros a b. apply Qcplus_comm. Qed.

Global Instance Qc_add_right_id : RightId (=) (zero (num:=Qc)) add.
Proof. intros a. apply Qcplus_0_r. Qed.

(** ** Claims on the trace and on the implicit score matching loss *)

Section IsmClaims.
Context {num : Type} `{Scalar num}.
Implicit Types (m : DataScoreModel num) (x : batch num).

Lemma ism_loss_tr_trace m x :
  RightId (=) zero (add (num:=num)) →
  jacobian_shape m x 2 →
  ism_loss_tr m x = Ok ((λ xk, trace (jacobian m xk)) <$> x).
Proof.
  intros Hid Hsh.
  rewrite (ism_loss_tr_diag01 m x 2) by (done || lia). f_equal.
  apply Forall_fmap_ext. unfold jacobian_shape in Hsh.
  eapply Forall_impl; [exact Hsh|]. intros xk [_ HJ]. simpl.
  symmetry. by apply trace_2x2.
Qed.

(** C1, as the code has it.  For a batch of two-dimensional points, whose
    Jacobians are 2×2, both strategies return the vector of the traces:
    entry [k] is the sum of the two diagonal entries of the Jacobian at
    [x[k]]. *)
Theorem ism_trace_two_dimensions m x :
  RightId (=) zero (add (num:=num)) →
  jacobian_shape m x 2 →
  ism_loss_tr m x = Ok ((λ xk, trace (jacobian m xk)) <$> x) ∧
  ism_loss_fast_tr m x = Ok ((λ xk, trace (jacobian m xk)) <$> x).
Proof.
  intros Hid Hsh. rewrite ism_loss_fast_tr_eq.
  split; by apply ism_loss_tr_trace.
Qed.

(** C3, as the code has it.  For a batch of two-dimensional points the
    implicit score matching loss is the mean over the batch of
    tr(J_f(x_k)) + 0.5·||f(x_k)||², the squared norm being summed over the
    output dimensions before the mean. *)
Theorem ism_loss_two_dimensions m x :
  RightId (=) zero (add (num:=num)) →
  jacobian_shape m x 2 →
  ism_loss m x = Ok (mean (ism_term m <$> x)) ∧
  ism_loss_fast m x = Ok (mean (ism_term m <$> x)).
Proof.
  intros Hid Hsh.
  unfold ism_loss, ism_loss_fast.
  rewrite ism_loss_fast_tr_eq, (ism_loss_tr_trace m x Hid Hsh). simpl.
  assert (Hism : _ism ((λ xk, trace (jacobian m xk)) <$> x) (forward m x) =
                 mean (ism_term m <$> x)).
  { unfold _ism, forward, sq_sum_last. f_equal.
    rewrite <- !list_fmap_compose.
    by rewrite zip_with_fmap_l, zip_with_fmap_r, zip_with_diag. }
  by rewrite Hism.
Qed.

End IsmClaims.

(** C1 fails in three dimensions: for [f(x)_i = x_i²] at the point (1, 2, 3)
    the code returns 2·1 + 2·2 = 6, the trace of the Jacobian is 12. *)
Lemma ism_trace_three_dimensions_counterexample :
  jacobian_shape square_model batch_3d 3 ∧
  ism_loss_tr square_model batch_3d ≠
  Ok ((λ xk, trace (jacobian square_model xk)) <$> batch_3d).
Proof.
  split; [repeat constructor|].
  intros Heq. vm_compute in Heq. discriminate Heq.
Qed.

Lemma ism_trace_two_dimensions_witness :
  ism_loss_tr square_model batch_2d =
    Ok ((λ xk, trace (jacobian square_model xk)) <$> batch_2d) ∧
  ism_loss_fast_tr square_model batch_2d =
    Ok ((λ xk, trace (jacobian square_model xk)) <$> batch_2d).
Proof.
  apply (ism_trace_two_dimensions square_model batch_2d).
  - apply Qc_add_right_id.
  - repeat constructor.
Defined.

(** C3 fails in three dimensions: at the point (1, 2, 3) the loss of
    [f(x)_i = x_i²] is 6 + 49 = 55, the claimed mean is 12 + 49 = 61. *)
Lemma ism_loss_three_dimensions_counterexample :
  jacobian_shape square_model batch_3d 3 ∧
  ism_loss square_model batch_3d ≠
  Ok (mean (ism_term square_model <$> batch_3d)).
Proof.
  split; [repeat constructor|].
  intros Heq. vm_compute in Heq. discriminate Heq.
Qed.

Lemma ism_loss_two_dimensions_witness :
  ism_loss square_model batch_2d =
    Ok (mean (ism_term square_model <$> batch_2d)) ∧
  ism_loss_fast square_model batch_2d =
    Ok (mean (ism_term square_model <$> batch_2d)).
Proof.
  apply (ism_loss_two_dimensions square_model batch_2d).
  - apply Qc_add_right_id.
  - repeat constructor.
Defined.

(** ** Batches as comprehensions over their rows *)

Section Comprehensions.
Context {A B C D : Type}.

Lemma range_as_imap (g : nat → B) (l : list A) :
  g <$> seq 0 (length l) = imap (λ k _, g k) l.
Proof. symmetry. apply imap_seq_0. Qed.

End Comprehensions.

(** ** The denoising losses, sample by sample *)

(** Two comprehensions over the rows of one batch are equal when their rows
    are: look row [k] up on both sides. *)
Ltac rows_eq k :=
  apply list_eq; intros k;
  repeat first
    [ rewrite lookup_zip_with
    | rewrite list_lookup_fmap
    | rewrite list_lookup_imap
    | progress simpl
    | match goal with
      | |- context [?l !! k] => is_var l; destruct (l !! k)
      end ];
  try reflexivity.

Section DenoisingPerSample.
Context {num : Type} `{Scalar num}.
Implicit Types (x : batch num) (eps : nat → nat → num).

(** Line 42: [xn = x + randn_like(x) * sigma]. *)
Lemma noisy_batch_scalar x eps (sigma : num) :
  tadd2 x (tmul_scalar (randn_like eps x) sigma) =
  imap (λ k xk,
    zip_with add xk ((λ e, e * sigma)%S <$> noise_row eps k xk)) x.
Proof. unfold tadd2, tmul_scalar, randn_like. rows_eq k. Qed.

(** Line 53: [xn = x + randn_like(x) * chosen_sigma], the levels being the
    [(B,1)] column whose entry [k] is [s k]. *)
Lemma noisy_batch_column x eps (s : nat → num) :
  tadd2 x (tmul_col (randn_like eps x) (imap (λ k _, s k) x)) =
  imap (λ k xk,
    zip_with add xk ((λ e, e * s k)%S <$> noise_row eps k xk)) x.
Proof. unfold tadd2, tmul_col, randn_like. rows_eq k. Qed.

(** Lines 43-45 on a noisy batch given row by row. *)
Lemma dsm_rows (f : vec num → vec num) x (g : nat → vec num → vec num)
    (w : num) :
  sq_sum_last (tsub2 (f <$> imap g x) (scalar_tmul w (tsub2 x (imap g x)))) =
  imap (λ k xk,
    sq_norm (zip_with sub (f (g k xk))
      ((λ d, w * d)%S <$> zip_with sub xk (g k xk)))) x.
Proof. unfold sq_sum_last, tsub2, scalar_tmul. rows_eq k. Qed.

(** Lines 54-58 on a noisy batch given row by row. *)
Lemma ncsm_rows (m : ConditionalDataScoreModel num) x
    (g : nat → vec num → vec num) (i : nat → nat) (s : nat → num) :
  zip_with mul
    ((λ r, half * r)%S <$>
       sq_sum_last (tsub2
         (cond_forward m (imap g x) (imap (λ k _, i k) x))
         (col_tmul ((λ v, one / sq v)%S <$> imap (λ k _, s k) x)
            (tsub2 x (imap g x)))))
    (sq <$> imap (λ k _, s k) x) =
  imap (λ k xk,
    (half * sq_norm (zip_with sub (cond_score m (g k xk) (i k))
              ((λ d, one / sq (s k) * d)%S <$> zip_with sub xk (g k xk))) *
     sq (s k))%S) x.
Proof. unfold sq_sum_last, tsub2, col_tmul, cond_forward. rows_eq k. Qed.

(** [dsm_loss] when [sigma ** 2] is not zero: half the mean of the
    residuals of the samples. *)
Lemma dsm_loss_residuals (m : DataScoreModel num) x (sigma : num) eps :
  is_zero (sq sigma) = false →
  dsm_loss m x sigma eps =
  Ok (half * mean (imap (λ k xk,
        denoise_residual (score m) xk (noise_row eps k xk) sigma) x))%S.
Proof.
  intros Hz. unfold dsm_loss, pydiv. rewrite Hz. simpl.
  rewrite !noisy_batch_scalar. unfold forward. by rewrite dsm_rows.
Qed.

Lemma dsm_loss_zero (m : DataScoreModel num) x (sigma : num) eps :
  is_zero (sq sigma) = true → dsm_loss m x sigma eps = Err ZeroDivisionError.
Proof. intros Hz. unfold dsm_loss, pydiv. by rewrite Hz. Qed.

(** The level indices drawn for a batch, and the levels they select. *)
Lemma randint_levels (rnd : nat → nat) (K : nat) x :
  0 < K →
  randint rnd 0 K (length x) = Ok (imap (λ k _, rnd k `mod` K) x).
Proof.
  intros HK. unfold randint. rewrite decide_True by done.
  rewrite Nat.sub_0_r. f_equal. apply (range_as_imap (λ k, rnd k `mod` K)).
Qed.

Lemma chosen_levels (sigmae : vec num) (rnd : nat → nat) x :
  0 < length sigmae →
  mapM (getitem sigmae) (imap (λ k _, rnd k `mod` length sigmae) x) =
  Ok (imap (λ k _, level sigmae (rnd k `mod` length sigmae)) x).
Proof.
  intros HK.
  rewrite (mapM_Ok_fmap (getitem sigmae) (level sigmae)).
  - by rewrite fmap_imap.
  - apply Forall_lookup. intros k i. rewrite list_lookup_imap.
    destruct (x !! k); [|done]. simpl. intros [= <-].
    unfold getitem, level.
    destruct (lookup_lt_is_Some_2 sigmae (rnd k `mod` length sigmae))
      as [s ->]; [|done].
    apply Nat.mod_upper_bound. lia.
Qed.

(** [ncsm_loss] on a non-empty schedule: the mean of the residuals of the
    samples, each halved and weighted by the square of its own level. *)
Lemma ncsm_loss_residuals (m : ConditionalDataScoreModel num) x
    (sigmae : vec num) (rnd : nat → nat) eps :
  0 < length sigmae →
  ncsm_loss m x sigmae rnd eps =
  Ok (mean (imap (λ k xk,
        let i := rnd k `mod` length sigmae in
        (half * denoise_residual (λ y, cond_score m y i) xk
                  (noise_row eps k xk) (level sigmae i) *
         sq (level sigmae i))%S) x)).
Proof.
  intros HK. unfold ncsm_loss.
  rewrite (randint_levels rnd (length sigmae) x HK). simpl.
  rewrite (chosen_levels sigmae rnd x HK). simpl.
  rewrite !(noisy_batch_column x eps
    (λ k, level sigmae (rnd k `mod` length sigmae))).
  by rewrite ncsm_rows.
Qed.

Lemma ncsm_loss_empty_schedule (m : ConditionalDataScoreModel num) x
    (rnd : nat → nat) eps :
  ncsm_loss m x [] rnd eps = Err RuntimeError.
Proof. done. Qed.

End DenoisingPerSample.

(** ** Exact arithmetic *)

Section Exact.
Context {num : Type} `{ExactArithmetic num}.

Add Field scalar_exact : scalar_field.

Lemma div_as_mul (a b : num) : (a / b = a * (one / b))%S.
Proof. apply (Fdiv_def scalar_field). Qed.

Lemma positive_nonzero (v : num) : ltb zero v = true → v ≠ zero.
Proof. intros Hpos ->. by rewrite ltb_irrefl in Hpos. Qed.

Lemma sq_nonzero (v : num) : v ≠ zero → sq v ≠ zero.
Proof.
  intros Hv Hsq. apply Hv. unfold sq in Hsq.
  assert (Hinv : (one / v * v = one)%S) by (by apply (Finv_l scalar_field)).
  transitivity (one / v * v * v)%S; [rewrite Hinv; ring|].
  transitivity (one / v * (v * v))%S; [ring|].
  rewrite Hsq. ring.
Qed.

Lemma is_zero_sq_false (v : num) : v ≠ zero → is_zero (sq v) = false.
Proof.
  intros Hv. apply not_true_is_false. rewrite is_zero_spec.
  by apply sq_nonzero.
Qed.

Lemma is_zero_sq_true : is_zero (sq (zero : num)) = true.
Proof. rewrite is_zero_spec. unfold sq. ring. Qed.

(** In a field the inverse of a square is never zero. *)
Lemma square_in_range_nonzero (v : num) : v ≠ zero → square_in_range v.
Proof.
  intros Hv. unfold square_in_range. apply not_true_is_false.
  rewrite is_zero_spec. intros Hinv.
  apply (F_1_neq_0 scalar_field).
  transitivity (one / sq v * sq v)%S.
  - symmetry. apply (Finv_l scalar_field). by apply sq_nonzero.
  - rewrite Hinv. ring.
Qed.

(** The residual the code computes is the residual of the specification. *)
Lemma denoise_residual_spec (f : vec num → vec num) (xk ek : vec num)
    (sigma : num) :
  denoise_residual f xk ek sigma = dsm_residual_spec f xk ek sigma.
Proof.
  unfold denoise_residual, dsm_residual_spec.
  assert (Hxn : zip_with add xk ((λ e, e * sigma)%S <$> ek) =
                zip_with (λ a e, a + sigma * e)%S xk ek).
  { rewrite zip_with_fmap_r. apply zip_with_ext; [|done..].
    intros a e. ring. }
  rewrite Hxn. do 2 f_equal.
  generalize (zip_with (λ a e, a + sigma * e)%S xk ek). intros xn.
  apply list_eq. intros d. rewrite list_lookup_fmap, !lookup_zip_with.
  destruct (xk !! d) as [a|], (xn !! d) as [n|]; simpl; try done.
  f_equal. rewrite (div_as_mul (sub n a)). ring.
Qed.

Lemma tsum_scale (c : num) (l : vec num) :
  tsum ((λ r, c * r)%S <$> l) = (c * tsum l)%S.
Proof.
  induction l as [|r l IH].
  - unfold tsum. simpl. ring.
  - change (c * r + tsum ((λ r, c * r)%S <$> l) = c * (r + tsum l))%S.
    rewrite IH. ring.
Qed.

(** Weighting every sample by one factor weights the mean by it. *)
Lemma mean_weighted (s : num) (l : vec num) :
  mean ((λ r, half * r * s)%S <$> l) = (s * (half * mean l))%S.
Proof.
  unfold mean. rewrite length_fmap.
  assert (Hext : (λ r, half * r * s)%S <$> l = (λ r, half * s * r)%S <$> l).
  { apply list_fmap_ext. intros _ r _. ring. }
  rewrite Hext, tsum_scale, (div_as_mul (tsum l)), div_as_mul. ring.
Qed.

End Exact.

(** ** Claims on the denoising losses *)

Section DenoisingClaims.
Context {num : Type} `{Scalar num}.
Implicit Types (x : batch num) (eps : nat → nat → num).

(** C4. For sigma > 0 and a fixed draw of the noise, the denoising score
    matching loss is 0.5 times the batch mean of ||f(x_k + σε_k) - t_k||²
    with the target t_k = -((x_k + σε_k) - x_k)/σ², the squared norm being
    summed over the D dimensions before the mean over the batch. *)
Theorem dsm_loss_spec (m : DataScoreModel num) x (sigma : num) eps :
  ExactArithmetic num →
  ltb zero sigma = true →
  dsm_loss m x sigma eps =
  Ok (half * mean (imap (λ k xk,
        dsm_residual_spec (score m) xk (noise_row eps k xk) sigma) x))%S.
Proof.
  intros Hexact Hpos.
  rewrite dsm_loss_residuals
    by (by apply is_zero_sq_false, positive_nonzero).
  do 3 f_equal. apply imap_ext. intros k xk _.
  apply denoise_residual_spec.
Qed.

(** C5. On a schedule of K ≥ 1 levels every sample k has its own draw of a
    level index in {0,…,K-1}; it is noised at that level, its residual is the
    residual of the denoising loss at that level, and the loss is the mean
    over the batch of the halved residuals, each one multiplied by the square
    of the level of its own sample before the mean is taken. *)
Theorem ncsm_loss_per_sample (m : ConditionalDataScoreModel num) x
    (sigmae : vec num) (rnd : nat → nat) eps :
  0 < length sigmae →
  (∀ k, rnd k `mod` length sigmae < length sigmae) ∧
  ncsm_loss m x sigmae rnd eps =
    Ok (mean (imap (λ k xk,
          let i := rnd k `mod` length sigmae in
          (half * denoise_residual (λ y, cond_score m y i) xk
                    (noise_row eps k xk) (level sigmae i) *
           sq (level sigmae i))%S) x)) ∧
  (∀ i, is_zero (sq (level sigmae i)) = false →
     dsm_loss (at_level m i) x (level sigmae i) eps =
     Ok (half * mean (imap (λ k xk,
           denoise_residual (λ y, cond_score m y i) xk
             (noise_row eps k xk) (level sigmae i)) x))%S).
Proof.
  intros HK. split; [|split].
  - intros k. apply Nat.mod_upper_bound. lia.
  - by apply ncsm_loss_residuals.
  - intros i Hz. by rewrite dsm_loss_residuals.
Qed.

(** C6. On a schedule of the single level sigma > 0 and with the same draw
    of the noise, the noise-conditional loss is sigma² times the denoising
    loss at sigma of the model taken at level 0. *)
Theorem ncsm_single_level (m : ConditionalDataScoreModel num) x
    (sigma : num) (rnd : nat → nat) eps :
  ExactArithmetic num →
  ltb zero sigma = true →
  ∃ vn vd,
    ncsm_loss m x [sigma] rnd eps = Ok vn ∧
    dsm_loss (at_level m 0) x sigma eps = Ok vd ∧
    vn = (sq sigma * vd)%S.
Proof.
  intros Hexact Hpos. eexists _, _.
  split; [by apply ncsm_loss_residuals; simpl; lia|].
  split; [by apply dsm_loss_residuals, is_zero_sq_false, positive_nonzero|].
  simpl. rewrite <- (mean_weighted (sq sigma)), fmap_imap. f_equal.
Qed.

(** C8, as the code has it.  Neither loss validates its arguments.  The
    denoising loss raises [ZeroDivisionError] when [sigma ** 2] is 0.0, which
    it is for sigma = 0 and, in floating point, for every sigma so small
    that its square underflows; it returns a number for every sigma whose
    square is neither 0.0 nor out of range, negative ones included, and for
    every batch, the empty one included.  The noise-conditional loss returns
    a number for every non-empty schedule, whatever its levels, and for
    every batch, and fails only on the empty schedule.  Nothing is assumed
    of the arithmetic; in exact arithmetic sigma = 0 is the one sigma whose
    square is zero, and no square is out of range. *)
Theorem dsm_ncsm_no_validation :
  (∀ (m : DataScoreModel num) x sigma eps,
     is_zero (sq sigma) = true →
     dsm_loss m x sigma eps = Err ZeroDivisionError) ∧
  (∀ (m : DataScoreModel num) x sigma eps,
     is_zero (sq sigma) = false → square_in_range sigma →
     is_Ok (dsm_loss m x sigma eps)) ∧
  (∀ (m : ConditionalDataScoreModel num) x sigmae rnd eps,
     sigmae ≠ [] → is_Ok (ncsm_loss m x sigmae rnd eps)) ∧
  (∀ (m : ConditionalDataScoreModel num) x rnd eps,
     ncsm_loss m x [] rnd eps = Err RuntimeError) ∧
  (ExactArithmetic num →
   is_zero (sq (zero : num)) = true ∧
   ∀ sigma : num, sigma ≠ zero →
     is_zero (sq sigma) = false ∧ square_in_range sigma).
Proof.
  split; [|split; [|split; [|split]]].
  - intros m x sigma eps Hz. by apply dsm_loss_zero.
  - intros m x sigma eps Hz _. eexists. by apply dsm_loss_residuals.
  - intros m x sigmae rnd eps Hne. eexists.
    apply ncsm_loss_residuals. destruct sigmae; [done|simpl; lia].
  - intros m x rnd eps. apply ncsm_loss_empty_schedule.
  - intros Hexact. split; [apply is_zero_sq_true|].
    intros sigma Hs. split.
    + by apply is_zero_sq_false.
    + by apply square_in_range_nonzero.
Qed.

End DenoisingClaims.

(** ** The claims at sample inputs *)

Lemma integrate_scores_rect2d_trapezoid_witness :
  let hx := (of_Z (2 - 0) / of_Z (3 - 1))%S in
  let hy := (of_Z (1 - 0) / of_Z (2 - 1))%S in
  ∃ u, integrate_scores_rect2d field_2x3 (0, 2)%Z (0, 1)%Z 3 2 (qz 0) = Ok u ∧
    shape2 u 2 3 ∧
    grid_at u 0 0 = qz 0 ∧
    (∀ ix, 1 ≤ ix < 3 →
       grid_at u 0 ix =
       (grid_at u 0 (ix - 1) +
        half * (field_x field_2x3 0 ix + field_x field_2x3 0 (ix - 1)) * hx)%S) ∧
    (∀ iy ix, 1 ≤ iy < 2 → ix < 3 →
       grid_at u iy ix =
       (grid_at u (iy - 1) ix +
        half * (field_y field_2x3 iy ix + field_y field_2x3 (iy - 1) ix) * hy)%S).
Proof.
  apply (integrate_scores_rect2d_trapezoid field_2x3 (0, 2)%Z (0, 1)%Z 3 2
    (qz 0)).
  - apply Qc_add_comm.
  - lia.
  - lia.
  - repeat constructor.
Defined.

Lemma integrate_scores_rect2d_degenerate_witness :
  is_Err (integrate_scores_rect2d field_2x3 (0, 2)%Z (0, 1)%Z 1 2 (qz 0)).
Proof.
  apply (integrate_scores_rect2d_degenerate field_2x3 (0, 2)%Z (0, 1)%Z 1 2
    (qz 0)).
  lia.
Defined.

Lemma integrate_scores_rect2d_ignores_upper_x_witness :
  integrate_scores_rect2d field_2x3 (0, 2)%Z (0, 1)%Z 3 2 (qz 0) =
  integrate_scores_rect2d field_2x3' (0, 2)%Z (0, 1)%Z 3 2 (qz 0).
Proof.
  apply (integrate_scores_rect2d_ignores_upper_x field_2x3 field_2x3' 2 3).
  - repeat constructor.
  - repeat constructor.
  - intros [|[|iy]] [|[|[|ix]]] Hiy Hix; (reflexivity || lia).
  - intros [|[|[|ix]]] Hix; (reflexivity || lia).
Defined.

Lemma dsm_loss_spec_witness :
  dsm_loss square_model batch_2d (qz 2) sample_eps =
  Ok (half * mean (imap (λ k xk,
        dsm_residual_spec (score square_model) xk
          (noise_row sample_eps k xk) (qz 2)) batch_2d))%S.
Proof.
  apply (dsm_loss_spec square_model batch_2d (qz 2) sample_eps).
  - apply Qc_exact.
  - reflexivity.
Defined.

Lemma ncsm_loss_per_sample_witness :
  let sigmae := [qz 1; qz 2] in
  let rnd := λ k : nat, k in
  (∀ k, rnd k `mod` length sigmae < length sigmae) ∧
  ncsm_loss scale_model batch_2d sigmae rnd sample_eps =
    Ok (mean (imap (λ k xk,
          let i := rnd k `mod` length sigmae in
          (half * denoise_residual (λ y, cond_score scale_model y i) xk
                    (noise_row sample_eps k xk) (level sigmae i) *
           sq (level sigmae i))%S) batch_2d)) ∧
  (∀ i, is_zero (sq (level sigmae i)) = false →
     dsm_loss (at_level scale_model i) batch_2d (level sigmae i) sample_eps =
     Ok (half * mean (imap (λ k xk,
           denoise_residual (λ y, cond_score scale_model y i) xk
             (noise_row sample_eps k xk) (level sigmae i)) batch_2d))%S).
Proof.
  apply (ncsm_loss_per_sample scale_model batch_2d [qz 1; qz 2] (λ k, k)
    sample_eps).
  simpl. lia.
Defined.

Lemma ncsm_single_level_witness :
  ∃ vn vd,
    ncsm_loss scale_model batch_2d [qz 2] (λ k, k) sample_eps = Ok vn ∧
    dsm_loss (at_level scale_model 0) batch_2d (qz 2) sample_eps = Ok vd ∧
    vn = (sq (qz 2) * vd)%S.
Proof.
  apply (ncsm_single_level scale_model batch_2d (qz 2) (λ k, k) sample_eps).
  - apply Qc_exact.
  - reflexivity.
Defined.

Lemma dsm_ncsm_no_validation_witness :
  dsm_loss square_model batch_2d zero sample_eps = Err ZeroDivisionError ∧
  is_Ok (dsm_loss square_model batch_2d (qz (-1)) sample_eps) ∧
  is_Ok (ncsm_loss scale_model [] [qz 0; qz (-2)] (λ k, k) sample_eps) ∧
  ncsm_loss scale_model batch_2d [] (λ k, k) sample_eps = Err RuntimeError ∧
  is_zero (sq (qz (-1))) = false ∧ square_in_range (qz (-1)).
Proof.
  destruct (dsm_ncsm_no_validation (num:=Qc))
    as (Hzero & Hdsm & Hncsm & Hempty & Hexact).
  split; [|split; [|split; [|split]]].
  - apply Hzero. reflexivity.
  - apply Hdsm; reflexivity.
  - apply Hncsm. discriminate.
  - apply Hempty.
  - apply (proj2 (Hexact Qc_exact)). intros Heq. discriminate Heq.
Defined.

(** C8 fails on the code: with sigma = -1 the denoising loss returns a
    number, with the levels 0 and -2 and with an empty batch the losses
    return numbers as well. *)
Lemma dsm_ncsm_fail_fast_counterexample :
  ltb (qz (-1)) zero = true ∧
  is_Ok (dsm_loss square_model batch_2d (qz (-1)) sample_eps) ∧
  is_Ok (ncsm_loss scale_model batch_2d [qz 0; qz (-2)] (λ k, k) sample_eps) ∧
  is_Ok (dsm_loss square_model [] (qz 1) sample_eps) ∧
  is_Ok (ncsm_loss scale_model [] [qz 1] (λ k, k) sample_eps).
Proof.
  split; [reflexivity|]. split; [|split; [|split]].
  - eexists. by apply dsm_loss_residuals.
  - eexists. apply ncsm_loss_residuals. simpl. lia.
  - eexists. by apply dsm_loss_residuals.
  - eexists. apply ncsm_loss_residuals. simpl. lia.
Qed.

(** * Further properties of the code *)

(** ** Which exception the integrator raises *)

Section Exceptions.
Context {num : Type} `{Scalar num}.
Implicit Types (v : list (batch num)) (u tx ty : batch num).

Lemma only_IndexError_Ok {A} (a : A) : only_IndexError (Ok a).
Proof. by intros e. Qed.

Lemma only_IndexError_bind {A B} (r : result A) (k : A → result B) :
  only_IndexError r → (∀ a, r = Ok a → only_IndexError (k a)) →
  only_IndexError (r ≫= k).
Proof.
  intros Hr Hk e. destruct r as [a|e']; simpl.
  - by apply Hk.
  - intros [= <-]. by apply Hr.
Qed.

Lemma only_IndexError_getitem {A} (l : list A) (i : nat) :
  only_IndexError (getitem l i).
Proof. intros e. unfold getitem. destruct (l !! i); congruence. Qed.

Lemma only_IndexError_getitem2 {A} (t : list (list A)) (i j : nat) :
  only_IndexError (getitem2 t i j).
Proof.
  apply only_IndexError_bind; [apply only_IndexError_getitem|].
  intros row _. apply only_IndexError_getitem.
Qed.

Lemma only_IndexError_setitem2 {A} (t : list (list A)) (i j : nat) (a : A) :
  only_IndexError (setitem2 t i j a).
Proof.
  intros e. unfold setitem2. destruct (t !! i); [|congruence].
  case_decide; congruence.
Qed.

Lemma only_IndexError_mapM {A B} (f : A → result B) (l : list A) :
  (∀ a, only_IndexError (f a)) → only_IndexError (mapM f l).
Proof.
  intros Hf. induction l as [|a l IH]; [by intros e|].
  simpl. apply only_IndexError_bind; [apply Hf|]. intros b _.
  apply only_IndexError_bind; [apply IH|]. intros k _ e. done.
Qed.

Lemma only_IndexError_for {St} (l : list nat) (body : nat → St → result St)
    (s : St) :
  (∀ i s', only_IndexError (body i s')) → only_IndexError (for_ l body s).
Proof.
  intros Hb. revert s. induction l as [|i l IH]; intros s; [by intros e|].
  simpl. apply only_IndexError_bind; [apply Hb|]. intros s' _. apply IH.
Qed.

Lemma only_IndexError_select_last v (c : nat) :
  only_IndexError (select_last v c).
Proof.
  apply only_IndexError_mapM. intros row. apply only_IndexError_mapM.
  intros x. apply only_IndexError_getitem.
Qed.

Lemma only_IndexError_trapezoid_x v (hx : num) :
  only_IndexError (trapezoid_x v hx).
Proof.
  apply only_IndexError_bind; [apply only_IndexError_select_last|].
  intros s1 _. apply only_IndexError_bind; [apply only_IndexError_select_last|].
  intros s0 _. apply only_IndexError_Ok.
Qed.

Lemma only_IndexError_trapezoid_y v (hy : num) :
  only_IndexError (trapezoid_y v hy).
Proof.
  apply only_IndexError_bind; [apply only_IndexError_select_last|].
  intros s1 _. apply only_IndexError_bind; [apply only_IndexError_select_last|].
  intros s0 _. apply only_IndexError_Ok.
Qed.

Lemma only_IndexError_walk_column ty (n_y : Z) (ix : nat) u :
  only_IndexError (walk_column ty n_y ix u).
Proof.
  apply only_IndexError_for. intros iy u'.
  apply only_IndexError_bind; [apply only_IndexError_getitem2|]. intros a _.
  apply only_IndexError_bind; [apply only_IndexError_getitem2|]. intros b _.
  apply only_IndexError_setitem2.
Qed.

Lemma only_IndexError_walk tx ty (n_x n_y : Z) u :
  only_IndexError (walk tx ty n_x n_y u).
Proof.
  apply only_IndexError_for. intros ix u'.
  apply only_IndexError_bind.
  - case_decide; [|apply only_IndexError_Ok].
    apply only_IndexError_bind; [apply only_IndexError_getitem2|]. intros a _.
    apply only_IndexError_bind; [apply only_IndexError_getitem2|]. intros b _.
    apply only_IndexError_setitem2.
  - intros u'' _. apply only_IndexError_walk_column.
Qed.

(** A computation that raises at most [IndexError] and returns nothing
    raises [IndexError]. *)
Lemma only_IndexError_Err {A} (r : result A) :
  only_IndexError r → ¬ is_Ok r → r = Err IndexError.
Proof.
  intros Hr Hno. destruct r as [a|e].
  - destruct Hno. by exists a.
  - by rewrite (Hr e).
Qed.

Lemma integrate_scores_rect2d_negative v (xlim ylim : Z * Z)
    (n_x n_y : Z) (c : num) :
  (n_x < 0 ∨ n_y < 0)%Z →
  integrate_scores_rect2d v xlim ylim n_x n_y c = Err RuntimeError.
Proof.
  intros Hneg. unfold integrate_scores_rect2d, new_zeros.
  by rewrite decide_True by lia.
Qed.

Lemma integrate_scores_rect2d_single v (xlim ylim : Z * Z)
    (n_x n_y : Z) (c : num) :
  (0 ≤ n_x)%Z → (0 ≤ n_y)%Z → (n_x = 1 ∨ n_y = 1)%Z →
  integrate_scores_rect2d v xlim ylim n_x n_y c = Err ZeroDivisionError.
Proof.
  intros Hx Hy Hone. unfold integrate_scores_rect2d.
  destruct (new_zeros_Ok n_y n_x Hy Hx) as (u0 & -> & _). simpl.
  destruct (decide (n_x = 1%Z)) as [->|Hx1]; [done|].
  rewrite (grid_spacing_Ok xlim) by done. simpl.
  destruct Hone as [?| ->]; [done|]. by rewrite grid_spacing_Err.
Qed.

Lemma integrate_scores_rect2d_empty v (xlim ylim : Z * Z)
    (n_x n_y : Z) (c : num) :
  (0 ≤ n_x)%Z → (0 ≤ n_y)%Z → n_x ≠ 1%Z → n_y ≠ 1%Z →
  (n_x = 0 ∨ n_y = 0)%Z →
  integrate_scores_rect2d v xlim ylim n_x n_y c = Err IndexError.
Proof.
  intros Hx Hy Hx1 Hy1 Hzero. unfold integrate_scores_rect2d.
  destruct (new_zeros_Ok n_y n_x Hy Hx) as (u0 & Hu0 & _). rewrite Hu0.
  simpl. rewrite (grid_spacing_Ok xlim), (grid_spacing_Ok ylim) by done.
  simpl.
  destruct (trapezoid_x v _) as [tx|e] eqn:Htx; simpl.
  2: { by rewrite (only_IndexError_trapezoid_x _ _ e Htx). }
  destruct (trapezoid_y v _) as [ty|e] eqn:Hty; simpl.
  2: { by rewrite (only_IndexError_trapezoid_y _ _ e Hty). }
  by rewrite (setitem2_new_zeros_Err n_y n_x u0 c Hu0) by lia.
Qed.

(** X1. With a count below 2 in either axis the integrator raises, whatever
    the field: [RuntimeError] when a count is negative (the grid cannot be
    allocated), otherwise [ZeroDivisionError] when a count is 1 (the spacing
    divides by zero), otherwise [IndexError] (a count is 0 and the seed
    [u[0, 0] = c] is out of bounds). *)
Theorem integrate_scores_rect2d_exception v (xlim ylim : Z * Z)
    (n_x n_y : Z) (c : num) :
  (n_x < 2 ∨ n_y < 2)%Z →
  integrate_scores_rect2d v xlim ylim n_x n_y c =
  Err (if decide (n_x < 0 ∨ n_y < 0)%Z then RuntimeError
       else if decide (n_x = 1 ∨ n_y = 1)%Z then ZeroDivisionError
       else IndexError).
Proof.
  intros Hsmall.
  destruct (decide (n_x < 0 ∨ n_y < 0)%Z) as [Hneg|Hneg].
  { by apply integrate_scores_rect2d_negative. }
  destruct (decide (n_x = 1 ∨ n_y = 1)%Z) as [Hone|Hone].
  { apply integrate_scores_rect2d_single; (done || lia). }
  apply integrate_scores_rect2d_empty; lia.
Qed.

End Exceptions.

(** ** The grid the integrator returns, as a function of its arguments *)

Section IntegratorAlgebra.
Context {num : Type} `{Scalar num}.
Implicit Types (v w : list (batch num)) (u : batch num).

(** The closed form on a field that is at least as large as the grid. *)
Lemma integrate_scores_rect2d_within v (N M : nat) (xlim ylim : Z * Z)
    (n_x n_y : Z) (c : num) :
  (2 ≤ n_x)%Z → (2 ≤ n_y)%Z →
  shape3 v N M 2 → Z.to_nat n_y ≤ N → Z.to_nat n_x ≤ M →
  let hx := (of_Z (xlim.2 - xlim.1) / of_Z (n_x - 1))%S in
  let hy := (of_Z (ylim.2 - ylim.1) / of_Z (n_y - 1))%S in
  ∃ u, integrate_scores_rect2d v xlim ylim n_x n_y c = Ok u ∧
    shape2 u (Z.to_nat n_y) (Z.to_nat n_x) ∧
    ∀ iy ix, iy < Z.to_nat n_y → ix < Z.to_nat n_x →
      at2 u iy ix =
      Some (walk_grid (increment_x v hx) (increment_y v hy) c iy ix).
Proof.
  intros Hnx Hny Hsh HN HM hx hy. unfold integrate_scores_rect2d.
  destruct (new_zeros_Ok n_y n_x) as (u0 & -> & Hsh0); [lia|lia|].
  rewrite !grid_spacing_Ok by lia. simpl. fold hx hy.
  destruct (trapezoid_x_spec v _ _ hx Hsh) as (tx & -> & Htx).
  destruct (trapezoid_y_spec v _ _ hy Hsh) as (ty & -> & Hty).
  simpl.
  destruct (setitem2_spec u0 _ _ 0 0 c Hsh0) as (u1 & -> & Hsh1 & Hseed & _);
    [lia|lia|].
  simpl.
  apply (walk_spec tx ty (increment_x v hx) (increment_y v hy) c n_x n_y u1);
    try done; try lia.
  - intros i Hi. apply Htx; lia.
  - intros j ix Hj Hix. apply Hty; lia.
Qed.

(** The same, read with the default of [grid_at]. *)
Lemma integrate_scores_rect2d_grid v (N M : nat) (xlim ylim : Z * Z)
    (n_x n_y : Z) (c : num) :
  (2 ≤ n_x)%Z → (2 ≤ n_y)%Z →
  shape3 v N M 2 → Z.to_nat n_y ≤ N → Z.to_nat n_x ≤ M →
  let hx := (of_Z (xlim.2 - xlim.1) / of_Z (n_x - 1))%S in
  let hy := (of_Z (ylim.2 - ylim.1) / of_Z (n_y - 1))%S in
  ∃ u, integrate_scores_rect2d v xlim ylim n_x n_y c = Ok u ∧
    shape2 u (Z.to_nat n_y) (Z.to_nat n_x) ∧
    ∀ iy ix, iy < Z.to_nat n_y → ix < Z.to_nat n_x →
      grid_at u iy ix =
      walk_grid (increment_x v hx) (increment_y v hy) c iy ix.
Proof.
  intros Hnx Hny Hsh HN HM hx hy.
  destruct (integrate_scores_rect2d_within v N M xlim ylim n_x n_y c)
    as (u & Hrun & Hshu & Hu); [done..|].
  exists u. split; [done|]. split; [done|].
  intros iy ix Hiy Hix. unfold grid_at. by rewrite Hu.
Qed.

Lemma walk_row0_ext (tx0 tx0' : nat → num) (c : num) (ix : nat) :
  (∀ i, i < ix → tx0 i = tx0' i) → walk_row0 tx0 c ix = walk_row0 tx0' c ix.
Proof.
  induction ix as [|i IH]; intros Hext; [done|].
  simpl. rewrite Hext by lia. f_equal. apply IH. intros; apply Hext; lia.
Qed.

Lemma walk_grid_ext (tx0 tx0' : nat → num) (ty0 ty0' : nat → nat → num)
    (c : num) (iy ix : nat) :
  (∀ i, i < ix → tx0 i = tx0' i) →
  (∀ j, j < iy → ty0 j ix = ty0' j ix) →
  walk_grid tx0 ty0 c iy ix = walk_grid tx0' ty0' c iy ix.
Proof.
  intros Hx. induction iy as [|j IH]; intros Hy.
  - by apply walk_row0_ext.
  - simpl. rewrite Hy by lia. f_equal. apply IH. intros; apply Hy; lia.
Qed.

Lemma walk_row0_constant (tx0 : nat → num) (c : num) (ix : nat) :
  Assoc (=) (add (num:=num)) → LeftId (=) zero (add (num:=num)) →
  walk_row0 tx0 c ix = (walk_row0 tx0 zero ix + c)%S.
Proof.
  intros Hassoc Hid. induction ix as [|i IH]; simpl.
  - by rewrite (left_id zero add).
  - by rewrite IH, (assoc add).
Qed.

Lemma walk_grid_constant (tx0 : nat → num) (ty0 : nat → nat → num)
    (c : num) (iy ix : nat) :
  Assoc (=) (add (num:=num)) → LeftId (=) zero (add (num:=num)) →
  walk_grid tx0 ty0 c iy ix = (walk_grid tx0 ty0 zero iy ix + c)%S.
Proof.
  intros Hassoc Hid. induction iy as [|j IH]; simpl.
  - by apply walk_row0_constant.
  - by rewrite IH, (assoc add).
Qed.

(** X2. The constant is a shift of the whole grid: on a well-shaped field
    every entry of the grid integrated from [c] is the entry of the grid
    integrated from 0, plus [c].  Needs addition to be associative and 0 to
    be its left identity. *)
Theorem integrate_scores_rect2d_constant v (xlim ylim : Z * Z)
    (n_x n_y : Z) (c : num) :
  Assoc (=) (add (num:=num)) → LeftId (=) zero (add (num:=num)) →
  (2 ≤ n_x)%Z → (2 ≤ n_y)%Z →
  shape3 v (Z.to_nat n_y) (Z.to_nat n_x) 2 →
  ∃ u0 u,
    integrate_scores_rect2d v xlim ylim n_x n_y zero = Ok u0 ∧
    integrate_scores_rect2d v xlim ylim n_x n_y c = Ok u ∧
    ∀ iy ix, iy < Z.to_nat n_y → ix < Z.to_nat n_x →
      grid_at u iy ix = (grid_at u0 iy ix + c)%S.
Proof.
  intros Hassoc Hid Hnx Hny Hsh.
  destruct (integrate_scores_rect2d_grid v (Z.to_nat n_y) (Z.to_nat n_x)
    xlim ylim n_x n_y zero)
    as (u0 & Hrun0 & _ & Hu0); [done..|].
  destruct (integrate_scores_rect2d_grid v (Z.to_nat n_y) (Z.to_nat n_x)
    xlim ylim n_x n_y c)
    as (u & Hrun & _ & Hu); [done..|].
  exists u0, u. split; [done|]. split; [done|].
  intros iy ix Hiy Hix. rewrite Hu, Hu0 by done.
  by apply walk_grid_constant.
Qed.

(** X3. The entry at [(iy, ix)] is the integral along an L-shaped path: it
    depends on the x-components of the bottom row up to column [ix] and on
    the y-components of column [ix] up to row [iy], and on nothing else of
    the field. *)
Theorem integrate_scores_rect2d_path v v' (xlim ylim : Z * Z)
    (n_x n_y : Z) (c : num) (iy ix : nat) :
  (2 ≤ n_x)%Z → (2 ≤ n_y)%Z →
  shape3 v (Z.to_nat n_y) (Z.to_nat n_x) 2 →
  shape3 v' (Z.to_nat n_y) (Z.to_nat n_x) 2 →
  iy < Z.to_nat n_y → ix < Z.to_nat n_x →
  (∀ i, i ≤ ix → field_x v 0 i = field_x v' 0 i) →
  (∀ j, j ≤ iy → field_y v j ix = field_y v' j ix) →
  ∃ u u',
    integrate_scores_rect2d v xlim ylim n_x n_y c = Ok u ∧
    integrate_scores_rect2d v' xlim ylim n_x n_y c = Ok u' ∧
    grid_at u iy ix = grid_at u' iy ix.
Proof.
  intros Hnx Hny Hsh Hsh' Hiy Hix Hx Hy.
  destruct (integrate_scores_rect2d_grid v (Z.to_nat n_y) (Z.to_nat n_x)
    xlim ylim n_x n_y c)
    as (u & Hrun & _ & Hu); [done..|].
  destruct (integrate_scores_rect2d_grid v' (Z.to_nat n_y) (Z.to_nat n_x)
    xlim ylim n_x n_y c)
    as (u' & Hrun' & _ & Hu'); [done..|].
  exists u, u'. split; [done|]. split; [done|].
  rewrite Hu, Hu' by done. apply walk_grid_ext.
  - intros i Hi. unfold increment_x. by rewrite !Hx by lia.
  - intros j Hj. unfold increment_y. by rewrite !Hy by lia.
Qed.

End IntegratorAlgebra.

Section IntegratorShapes.
Context {num : Type} `{Scalar num}.
Implicit Types (v w : list (batch num)) (u : batch num).

Lemma shape3_at2 v (n m d iy ix : nat) :
  shape3 v n m d → iy < n → ix < m →
  ∃ x : vec num, at2 v iy ix = Some x ∧ length x = d.
Proof.
  intros Hsh Hiy Hix.
  destruct (shape2_at2 v n m iy ix (shape3_shape2 _ _ _ _ Hsh) Hiy Hix)
    as [x Hx].
  exists x. split; [done|]. unfold at2 in Hx.
  destruct (v !! iy) as [row|] eqn:Hrow; [|done]. simpl in Hx.
  destruct Hsh as [_ Hrows]. rewrite Forall_lookup in Hrows.
  destruct (Hrows iy row Hrow) as [_ Hvecs]. rewrite Forall_lookup in Hvecs.
  by apply (Hvecs ix x).
Qed.

Lemma at2_crop v (n m iy ix : nat) :
  iy < n → ix < m → at2 (crop n m v) iy ix = at2 v iy ix.
Proof.
  intros Hiy Hix. unfold at2, crop.
  rewrite list_lookup_fmap, lookup_take_lt by done.
  destruct (v !! iy) as [row|]; [|done]. simpl. by rewrite lookup_take_lt.
Qed.

Lemma shape3_crop v (N M d n m : nat) :
  shape3 v N M d → n ≤ N → m ≤ M → shape3 (crop n m v) n m d.
Proof.
  intros [HN Hrows] Hn Hm. unfold crop. split.
  - rewrite length_fmap, length_take. lia.
  - apply Forall_fmap, Forall_take. eapply Forall_impl; [exact Hrows|].
    intros row [HM Hvecs]. simpl. split.
    + rewrite length_take. lia.
    + by apply Forall_take.
Qed.

Lemma field_x_crop v (n m iy ix : nat) :
  iy < n → ix < m → field_x (crop n m v) iy ix = field_x v iy ix.
Proof. intros Hiy Hix. unfold field_x, at3. by rewrite at2_crop. Qed.

Lemma field_y_crop v (n m iy ix : nat) :
  iy < n → ix < m → field_y (crop n m v) iy ix = field_y v iy ix.
Proof. intros Hiy Hix. unfold field_y, at3. by rewrite at2_crop. Qed.

(** X4. The shape of the field is never compared with the counts: on a
    field with more rows or columns than the counts say, the integrator
    returns what it returns on the field cropped to [n_y] rows and [n_x]
    columns, with the spacing still taken from the counts. *)
Theorem integrate_scores_rect2d_crops v (N M : nat) (xlim ylim : Z * Z)
    (n_x n_y : Z) (c : num) :
  (2 ≤ n_x)%Z → (2 ≤ n_y)%Z →
  shape3 v N M 2 → Z.to_nat n_y ≤ N → Z.to_nat n_x ≤ M →
  ∃ u,
    integrate_scores_rect2d v xlim ylim n_x n_y c = Ok u ∧
    integrate_scores_rect2d (crop (Z.to_nat n_y) (Z.to_nat n_x) v)
      xlim ylim n_x n_y c = Ok u.
Proof.
  intros Hnx Hny Hsh HN HM.
  destruct (integrate_scores_rect2d_within v N M xlim ylim n_x n_y c)
    as (u & Hrun & Hshu & Hu); [done..|].
  destruct (integrate_scores_rect2d_within
    (crop (Z.to_nat n_y) (Z.to_nat n_x) v) (Z.to_nat n_y) (Z.to_nat n_x)
    xlim ylim n_x n_y c) as (u' & Hrun' & Hshu' & Hu');
    [done|done|by apply (shape3_crop v N M)|done|done|].
  exists u. split; [done|]. rewrite Hrun'. f_equal.
  apply (shape2_ext _ _ (Z.to_nat n_y) (Z.to_nat n_x)); [done..|].
  intros iy ix Hiy Hix. rewrite Hu, Hu' by done. f_equal.
  apply walk_grid_ext.
  - intros i Hi. unfold increment_x. by rewrite !field_x_crop by lia.
  - intros j Hj. unfold increment_y. by rewrite !field_y_crop by lia.
Qed.

Lemma for_Ok_body {St} (l : list nat) (body : nat → St → result St)
    (s s' : St) (i : nat) :
  for_ l body s = Ok s' → i ∈ l → ∃ s1 s2, body i s1 = Ok s2.
Proof.
  revert s. induction l as [|j l IH]; intros s Hrun Hi.
  - by apply elem_of_nil in Hi.
  - simpl in Hrun. destruct (body j s) as [s1|e] eqn:Hb; [|done].
    simpl in Hrun. apply elem_of_cons in Hi as [->|Hi].
    + by exists s, s1.
    + by apply (IH s1).
Qed.

Lemma bind_Ok_inv {A B} (r : result A) (k : A → result B) (b : B) :
  r ≫= k = Ok b → ∃ a, r = Ok a ∧ k a = Ok b.
Proof. destruct r as [a|e]; [|done]. intros Hk. by exists a. Qed.

Lemma getitem2_Ok_lt {A} (t : list (list A)) (i j : nat) (a : A) :
  getitem2 t i j = Ok a → i < length t.
Proof.
  intros Hget. apply getitem2_Ok in Hget. unfold at2 in Hget.
  destruct (t !! i) as [row|] eqn:Hrow; [|done].
  by apply lookup_lt_Some in Hrow.
Qed.

Lemma getitem2_Ok_row {A} (t : list (list A)) (i j : nat) (a : A) row :
  getitem2 t i j = Ok a → t !! i = Some row → j < length row.
Proof.
  intros Hget Hrow. apply getitem2_Ok in Hget. unfold at2 in Hget.
  rewrite Hrow in Hget. simpl in Hget. by apply lookup_lt_Some in Hget.
Qed.

(** X5. On a field with fewer rows or columns than the counts say, the
    walk reads past the increments and the call raises [IndexError]. *)
Theorem integrate_scores_rect2d_undersized v (N M : nat) (xlim ylim : Z * Z)
    (n_x n_y : Z) (c : num) :
  (2 ≤ n_x)%Z → (2 ≤ n_y)%Z →
  shape3 v N M 2 → (N < Z.to_nat n_y ∨ M < Z.to_nat n_x) →
  integrate_scores_rect2d v xlim ylim n_x n_y c = Err IndexError.
Proof.
  intros Hnx Hny Hsh Hsmall. unfold integrate_scores_rect2d.
  destruct (new_zeros_Ok n_y n_x) as (u0 & -> & Hsh0); [lia|lia|].
  rewrite !grid_spacing_Ok by lia. simpl.
  rewrite (trapezoid_x_component v N M), (trapezoid_y_component v N M) by done.
  simpl.
  destruct (setitem2_spec u0 _ _ 0 0 c Hsh0) as (u1 & -> & _); [lia|lia|].
  simpl. apply only_IndexError_Err; [apply only_IndexError_walk|].
  intros [u Hrun]. unfold walk in Hrun.
  pose proof (shape3_shape2 _ _ _ _ Hsh) as Hsh2.
  pose proof (shape2_component 0 v N M Hsh2) as [Hlen0 Hrows0].
  pose proof (shape2_component 1 v N M Hsh2) as [Hlen1 Hrows1].
  destruct Hsmall as [HN|HM].
  - destruct (for_Ok_body _ _ _ _ 0 Hrun) as (s1 & s2 & Hbody).
    { unfold range. apply elem_of_seq. lia. }
    apply bind_Ok_inv in Hbody as (s3 & _ & Hcol). unfold walk_column in Hcol.
    destruct (for_Ok_body _ _ _ _ (Z.to_nat n_y - 1) Hcol) as (s4 & s5 & Hb).
    { unfold range. apply elem_of_seq. lia. }
    apply bind_Ok_inv in Hb as (a & Hget & _).
    apply getitem2_Ok_lt in Hget. revert Hget.
    unfold tmul_scalar, scalar_tmul, tadd2, tail_slice, init_slice.
    rewrite !length_fmap, length_zip_with, length_drop, length_take. lia.
  - destruct (for_Ok_body _ _ _ _ (Z.to_nat n_x - 1) Hrun) as (s1 & s2 & Hbody).
    { unfold range. apply elem_of_seq. lia. }
    apply bind_Ok_inv in Hbody as (s3 & Hrow & _).
    rewrite decide_True in Hrow by lia.
    apply bind_Ok_inv in Hrow as (a & Hget & _).
    pose proof (trapezoid_x_row0 (component 0 v)) as Hrow0.
    destruct (component 0 v !! 0) as [row|] eqn:Hr.
    + rewrite Forall_lookup in Hrows0. pose proof (Hrows0 0 row Hr) as Hlen.
      eapply getitem2_Ok_row in Hget; [|apply Hrow0]. revert Hget.
      unfold tail_slice, init_slice.
      rewrite !length_fmap, length_zip_with, length_drop, length_take. lia.
    + apply getitem2_Ok_lt in Hget.
      specialize (Hrow0 (of_Z (xlim.2 - xlim.1) / of_Z (n_x - 1))%S).
      simpl in Hrow0. apply lookup_ge_None in Hrow0. lia.
Qed.

End IntegratorShapes.

Section IntegratorAdditive.
Context {num : Type} `{Scalar num}.
Implicit Types (v w : list (batch num)) (u : batch num).

Lemma shape3_field_add v w (n m d : nat) :
  shape3 v n m d → shape3 w n m d → shape3 (field_add v w) n m d.
Proof.
  intros [Hn Hv] [Hn' Hw]. unfold field_add. split.
  { rewrite length_zip_with. lia. }
  apply Forall_lookup. intros i row. rewrite lookup_zip_with.
  rewrite Forall_lookup in Hv. rewrite Forall_lookup in Hw.
  destruct (v !! i) as [rv|] eqn:Hrv; [|done]. simpl.
  destruct (w !! i) as [rw|] eqn:Hrw; [|done]. simpl. intros [= <-].
  destruct (Hv i rv Hrv) as [Hm Hvv], (Hw i rw Hrw) as [Hm' Hww]. split.
  { rewrite length_zip_with. lia. }
  apply Forall_lookup. intros j x. rewrite lookup_zip_with.
  rewrite Forall_lookup in Hvv. rewrite Forall_lookup in Hww.
  destruct (rv !! j) as [xv|] eqn:Hxv; [|done]. simpl.
  destruct (rw !! j) as [xw|] eqn:Hxw; [|done]. simpl. intros [= <-].
  rewrite length_zip_with, (Hvv j xv Hxv), (Hww j xw Hxw). lia.
Qed.

Lemma at3_field_add v w (n m d iy ix k : nat) :
  shape3 v n m d → shape3 w n m d → iy < n → ix < m → k < d →
  default zero (at3 (field_add v w) iy ix k) =
  (default zero (at3 v iy ix k) + default zero (at3 w iy ix k))%S.
Proof.
  intros Hv Hw Hiy Hix Hk. unfold at3, field_add. rewrite at2_zip_with.
  destruct (shape3_at2 v n m d iy ix Hv Hiy Hix) as (xv & -> & Hlv).
  destruct (shape3_at2 w n m d iy ix Hw Hiy Hix) as (xw & -> & Hlw).
  simpl. rewrite lookup_zip_with.
  destruct (lookup_lt_is_Some_2 xv k) as [a ->]; [lia|].
  by destruct (lookup_lt_is_Some_2 xw k) as [b ->]; [lia|].
Qed.

End IntegratorAdditive.

Section IntegratorAdditiveExact.
Context {num : Type} `{ExactArithmetic num}.
Implicit Types (v w : list (batch num)) (u : batch num).

Add Field scalar_exact_additive : scalar_field.

Lemma walk_row0_add (ta tb ts : nat → num) (c d : num) (ix : nat) :
  (∀ i, i < ix → ts i = (ta i + tb i)%S) →
  walk_row0 ts (c + d)%S ix = (walk_row0 ta c ix + walk_row0 tb d ix)%S.
Proof.
  induction ix as [|i IH]; intros Hs; [done|].
  simpl. rewrite Hs by lia. rewrite IH by (intros; apply Hs; lia). ring.
Qed.

Lemma walk_grid_add (ta tb ts : nat → num) (ya yb ys : nat → nat → num)
    (c d : num) (iy ix : nat) :
  (∀ i, i < ix → ts i = (ta i + tb i)%S) →
  (∀ j, j < iy → ys j ix = (ya j ix + yb j ix)%S) →
  walk_grid ts ys (c + d)%S iy ix =
  (walk_grid ta ya c iy ix + walk_grid tb yb d iy ix)%S.
Proof.
  intros Hx. induction iy as [|j IH]; intros Hy.
  - by apply walk_row0_add.
  - simpl. rewrite Hy by lia. rewrite IH by (intros; apply Hy; lia). ring.
Qed.

Lemma increment_x_add v w (n m : nat) (hx : num) (i : nat) :
  shape3 v n m 2 → shape3 w n m 2 → 0 < n → i + 1 < m →
  increment_x (field_add v w) hx i =
  (increment_x v hx i + increment_x w hx i)%S.
Proof.
  intros Hv Hw Hn Hi. unfold increment_x, field_x.
  rewrite !(at3_field_add v w n m 2) by (done || lia). ring.
Qed.

Lemma increment_y_add v w (n m : nat) (hy : num) (j ix : nat) :
  shape3 v n m 2 → shape3 w n m 2 → j + 1 < n → ix < m →
  increment_y (field_add v w) hy j ix =
  (increment_y v hy j ix + increment_y w hy j ix)%S.
Proof.
  intros Hv Hw Hj Hix. unfold increment_y, field_y.
  rewrite !(at3_field_add v w n m 2) by (done || lia). ring.
Qed.

End IntegratorAdditiveExact.

Section IntegratorAdditiveClaim.
Context {num : Type} `{Scalar num}.

(** X6. The integrator is additive: in exact arithmetic the grid of the sum
    of two fields, integrated from [c + d], is the entry-wise sum of the
    grids of the two fields integrated from [c] and from [d]. *)
Theorem integrate_scores_rect2d_additive (v w : list (batch num))
    (xlim ylim : Z * Z) (n_x n_y : Z) (c d : num) :
  ExactArithmetic num →
  (2 ≤ n_x)%Z → (2 ≤ n_y)%Z →
  shape3 v (Z.to_nat n_y) (Z.to_nat n_x) 2 →
  shape3 w (Z.to_nat n_y) (Z.to_nat n_x) 2 →
  ∃ uv uw us,
    integrate_scores_rect2d v xlim ylim n_x n_y c = Ok uv ∧
    integrate_scores_rect2d w xlim ylim n_x n_y d = Ok uw ∧
    integrate_scores_rect2d (field_add v w) xlim ylim n_x n_y (c + d)%S =
      Ok us ∧
    ∀ iy ix, iy < Z.to_nat n_y → ix < Z.to_nat n_x →
      grid_at us iy ix = (grid_at uv iy ix + grid_at uw iy ix)%S.
Proof.
  intros Hexact Hnx Hny Hv Hw.
  destruct (integrate_scores_rect2d_grid v (Z.to_nat n_y) (Z.to_nat n_x)
    xlim ylim n_x n_y c) as (uv & Hrv & _ & Huv); [done..|].
  destruct (integrate_scores_rect2d_grid w (Z.to_nat n_y) (Z.to_nat n_x)
    xlim ylim n_x n_y d) as (uw & Hrw & _ & Huw); [done..|].
  destruct (integrate_scores_rect2d_grid (field_add v w) (Z.to_nat n_y)
    (Z.to_nat n_x) xlim ylim n_x n_y (c + d)%S) as (us & Hrs & _ & Hus);
    [done|done|by apply shape3_field_add|done|done|].
  exists uv, uw, us. split; [done|]. split; [done|]. split; [done|].
  intros iy ix Hiy Hix. rewrite Hus, Huv, Huw by done.
  apply walk_grid_add.
  - intros i Hi.
    apply (increment_x_add v w (Z.to_nat n_y) (Z.to_nat n_x)); (done || lia).
  - intros j Hj.
    apply (increment_y_add v w (Z.to_nat n_y) (Z.to_nat n_x)); (done || lia).
Qed.

End IntegratorAdditiveClaim.

(** ** The scores of a model on the grid *)

Section ModelGridProps.
Context {num : Type} `{Scalar num}.
Implicit Types (m : DataScoreModel num) (X Y : vec num).

Lemma linspace_Ok (start stop steps : Z) :
  (0 ≤ steps)%Z →
  ∃ X, linspace start stop steps = Ok X ∧ length X = Z.to_nat steps.
Proof.
  intros Hs. unfold linspace. rewrite decide_False by lia.
  case_decide as H1.
  - subst steps. by eexists.
  - eexists. split; [done|]. by rewrite length_fmap, length_seq.
Qed.

Lemma linspace_Err (start stop steps : Z) :
  (steps < 0)%Z → linspace start stop steps = Err RuntimeError.
Proof. intros Hs. unfold linspace. by rewrite decide_True. Qed.

Lemma reshape_join {A} (l : list (list A)) (n k : nat) :
  shape2 l n k → reshape (replicate n k) (mjoin l) = l.
Proof.
  intros [Hn Hrows]. subst n. induction Hrows as [|r l Hr _ IH]; [done|].
  simpl. rewrite take_app_length' by done. rewrite drop_app_length' by done.
  by rewrite IH.
Qed.

Lemma length_join_shape2 {A} (l : list (list A)) (n k : nat) :
  shape2 l n k → length (mjoin l) = n * k.
Proof.
  intros [Hn Hrows]. subst n. induction Hrows as [|r l Hr _ IH]; [done|].
  simpl. rewrite length_app, IH, Hr. lia.
Qed.

(** The stacked mesh, row by row. *)
Lemma stack_meshgrid X Y :
  stack_last (meshgrid Y X).2 (meshgrid Y X).1 =
  (λ y, (λ x, [x; y]) <$> X) <$> Y.
Proof.
  unfold stack_last, meshgrid. simpl.
  apply list_eq. intros iy. rewrite lookup_zip_with, !list_lookup_fmap.
  destruct (Y !! iy) as [y|]; [|done]. simpl. f_equal.
  apply list_eq. intros ix. rewrite lookup_zip_with, !list_lookup_fmap.
  by destruct (X !! ix) as [x|].
Qed.

Lemma fmap_join {A B} (f : A → B) (l : list (list A)) :
  f <$> mjoin l = mjoin (fmap (M:=list) f <$> l).
Proof.
  induction l as [|r l IH]; [done|]. simpl. by rewrite fmap_app, IH.
Qed.

(** [view(n, m, 2)] undoes the flattening of an n×m×2 tensor. *)
Lemma view3_join (t : list (batch num)) (n m : nat) :
  shape3 t n m 2 → view3 (mjoin t) n m 2 = Ok t.
Proof.
  intros Hsh. pose proof (shape3_shape2 _ _ _ _ Hsh) as Hsh2.
  assert (Hpts : shape2 (mjoin t) (n * m) 2).
  { split; [by apply length_join_shape2|].
    destruct Hsh as [_ Hrows]. clear Hsh2.
    induction Hrows as [|r l [_ Hr] _ IH]; [done|].
    simpl. by apply Forall_app. }
  unfold view3. rewrite (length_join_shape2 _ _ _ Hpts).
  rewrite decide_True by done.
  by rewrite (reshape_join _ _ _ Hpts), (reshape_join _ _ _ Hsh2).
Qed.

(** The scores of a model on the grid, as a comprehension. *)
Lemma scores_rect2d_Ok m (xlim ylim : Z * Z) (n_x n_y : Z) X Y :
  (∀ p : vec num, length p = 2 → length (score m p) = 2) →
  linspace xlim.1 xlim.2 n_x = Ok X → length X = Z.to_nat n_x →
  linspace ylim.1 ylim.2 n_y = Ok Y → length Y = Z.to_nat n_y →
  scores_rect2d m xlim ylim n_x n_y =
  Ok ((λ y, (λ x, score m [x; y]) <$> X) <$> Y).
Proof.
  intros Hm HX HlX HY HlY. unfold scores_rect2d. rewrite HX, HY. simpl.
  change (stack_last _ _)
    with (stack_last (meshgrid Y X).2 (meshgrid Y X).1).
  rewrite stack_meshgrid. unfold forward, view_points.
  rewrite fmap_join, <- list_fmap_compose.
  assert (Hext : (fmap (M:=list) (score m) ∘ (λ y, (λ x, [x; y]) <$> X)) <$> Y =
                 (λ y, (λ x, score m [x; y]) <$> X) <$> Y).
  { apply list_fmap_ext. intros _ y _. unfold compose.
    by rewrite <- list_fmap_compose. }
  rewrite Hext. apply view3_join. split.
  - by rewrite length_fmap.
  - apply Forall_fmap, Forall_true. intros y. simpl. split.
    + by rewrite length_fmap.
    + apply Forall_fmap, Forall_true. intros x. simpl. by apply Hm.
Qed.

End ModelGridProps.

Section ModelGridClaims.
Context {num : Type} `{Scalar num}.
Implicit Types (m : DataScoreModel num) (X Y : vec num).

Lemma at2_grid {A B C} (f : A → B → C) (a : list A) (b : list B)
    (iy ix : nat) (x : A) (y : B) :
  a !! ix = Some x → b !! iy = Some y →
  at2 ((λ y, (λ x, f x y) <$> a) <$> b) iy ix = Some (f x y).
Proof.
  intros Hx Hy. unfold at2. rewrite list_lookup_fmap, Hy. simpl.
  by rewrite list_lookup_fmap, Hx.
Qed.

Lemma shape3_sampled m X Y :
  (∀ p : vec num, length p = 2 → length (score m p) = 2) →
  shape3 ((λ y, (λ x, score m [x; y]) <$> X) <$> Y) (length Y) (length X) 2.
Proof.
  intros Hm. split; [by rewrite length_fmap|].
  apply Forall_fmap, Forall_true. intros y. simpl. split.
  - by rewrite length_fmap.
  - apply Forall_fmap, Forall_true. intros x. simpl. by apply Hm.
Qed.

Lemma at2_sampled m X Y (iy ix : nat) :
  iy < length Y → ix < length X →
  at2 ((λ y, (λ x, score m [x; y]) <$> X) <$> Y) iy ix =
  Some (score m (grid_point X Y iy ix)).
Proof.
  intros Hiy Hix.
  destruct (lookup_lt_is_Some_2 X ix Hix) as [x Hx].
  destruct (lookup_lt_is_Some_2 Y iy Hiy) as [y Hy].
  rewrite (at2_grid (λ x y, score m [x; y]) X Y iy ix x y Hx Hy).
  unfold grid_point. by rewrite Hx, Hy.
Qed.

(** X7. For counts that are not negative and a model with two-dimensional
    scores, [scores_rect2d] returns an n_y×n_x×2 tensor whose vector in row
    [iy] and column [ix] is the score of the model at the point
    [(X[ix], Y[iy])], x first, where [X] and [Y] are the points [linspace]
    yields for the two axes. *)
Theorem scores_rect2d_grid m (xlim ylim : Z * Z) (n_x n_y : Z) :
  (∀ p : vec num, length p = 2 → length (score m p) = 2) →
  (0 ≤ n_x)%Z → (0 ≤ n_y)%Z →
  ∃ X Y t,
    linspace xlim.1 xlim.2 n_x = Ok X ∧
    linspace ylim.1 ylim.2 n_y = Ok Y ∧
    scores_rect2d m xlim ylim n_x n_y = Ok t ∧
    shape3 t (Z.to_nat n_y) (Z.to_nat n_x) 2 ∧
    ∀ iy ix, iy < Z.to_nat n_y → ix < Z.to_nat n_x →
      at2 t iy ix = Some (score m (grid_point X Y iy ix)).
Proof.
  intros Hm Hnx Hny.
  destruct (linspace_Ok xlim.1 xlim.2 n_x Hnx) as (X & HX & HlX).
  destruct (linspace_Ok ylim.1 ylim.2 n_y Hny) as (Y & HY & HlY).
  exists X, Y. eexists. split; [done|]. split; [done|].
  split; [by apply (scores_rect2d_Ok m xlim ylim n_x n_y X Y)|].
  rewrite <- HlX, <- HlY. split; [by apply shape3_sampled|].
  intros iy ix Hiy Hix. by apply at2_sampled.
Qed.

(** X8. [scores_rect2d] raises [RuntimeError] on a negative count, and on
    a grid with at least one point when the scores of the model have a number
    of components other than 2 (the final [view] does not fit). *)
Theorem scores_rect2d_errors m (xlim ylim : Z * Z) (n_x n_y : Z) :
  ((n_x < 0 ∨ n_y < 0)%Z →
   scores_rect2d m xlim ylim n_x n_y = Err RuntimeError) ∧
  (∀ L, L ≠ 2 → (∀ p : vec num, length (score m p) = L) →
   (0 < n_x)%Z → (0 < n_y)%Z →
   scores_rect2d m xlim ylim n_x n_y = Err RuntimeError).
Proof.
  split.
  - intros Hneg. unfold scores_rect2d.
    destruct (decide (n_x < 0)%Z) as [Hx|Hx].
    { rewrite (linspace_Err xlim.1 xlim.2 n_x) by done. reflexivity. }
    destruct (linspace_Ok xlim.1 xlim.2 n_x) as (X & -> & _); [lia|].
    simpl. rewrite (linspace_Err ylim.1 ylim.2 n_y) by lia. done.
  - intros L HL Hm Hnx Hny. unfold scores_rect2d.
    destruct (linspace_Ok xlim.1 xlim.2 n_x) as (X & -> & HlX); [lia|].
    destruct (linspace_Ok ylim.1 ylim.2 n_y) as (Y & -> & HlY); [lia|].
    simpl.
    change (stack_last _ _)
      with (stack_last (meshgrid Y X).2 (meshgrid Y X).1).
    rewrite stack_meshgrid. unfold view3, forward, view_points.
    rewrite (length_join_shape2 _
      (Z.to_nat n_y * Z.to_nat n_x) L).
    + rewrite decide_False; [done|]. nia.
    + split.
      * rewrite length_fmap.
        apply (length_join_shape2 _ (Z.to_nat n_y) (Z.to_nat n_x)).
        split; [by rewrite length_fmap|].
        apply Forall_fmap, Forall_true. intros y. simpl.
        by rewrite length_fmap.
      * apply Forall_fmap, Forall_true. intros p. apply Hm.
Qed.

(** X9. A count below 2 in either axis makes the integrator raise for
    either kind of argument, a tensor or a score model, whatever the model
    returns. *)
Theorem integrate_scores_rect2d_any_degenerate (scores : scores_arg num)
    (xlim ylim : Z * Z) (n_x n_y : Z) (c : num) :
  (n_x < 2 ∨ n_y < 2)%Z →
  is_Err (integrate_scores_rect2d_any scores xlim ylim n_x n_y c).
Proof.
  intros Hsmall.
  assert (Htensor : ∀ t : list (batch num),
    is_Err (integrate_scores_rect2d t xlim ylim n_x n_y c)).
  { intros t.
    destruct (decide (n_x < 0 ∨ n_y < 0)%Z) as [Hneg|Hneg].
    { eexists. by apply integrate_scores_rect2d_negative. }
    destruct (decide (n_x = 1 ∨ n_y = 1)%Z) as [Hone|Hone].
    { eexists. apply integrate_scores_rect2d_single; (done || lia). }
    eexists. apply integrate_scores_rect2d_empty; lia. }
  destruct scores as [t|m]; simpl; [apply Htensor|].
  destruct (scores_rect2d m xlim ylim n_x n_y) as [t|e]; simpl.
  - apply Htensor.
  - by exists e.
Qed.

(** X10. Called on a score model with two-dimensional scores and counts of
    at least 2, the integrator returns the n_y×n_x grid of the trapezoid
    recurrences over the scores of the model at the grid points:
    U[0,0] = c, along the bottom row the x-components at [(X[ix], Y[0])],
    up every column the y-components at [(X[ix], Y[iy])]. *)
Theorem integrate_scores_rect2d_model m (xlim ylim : Z * Z) (n_x n_y : Z)
    (c : num) :
  Comm (=) (add (num:=num)) →
  (∀ p : vec num, length p = 2 → length (score m p) = 2) →
  (2 ≤ n_x)%Z → (2 ≤ n_y)%Z →
  let hx := (of_Z (xlim.2 - xlim.1) / of_Z (n_x - 1))%S in
  let hy := (of_Z (ylim.2 - ylim.1) / of_Z (n_y - 1))%S in
  ∃ X Y u,
    linspace xlim.1 xlim.2 n_x = Ok X ∧
    linspace ylim.1 ylim.2 n_y = Ok Y ∧
    integrate_scores_rect2d_any (scores_model m) xlim ylim n_x n_y c = Ok u ∧
    shape2 u (Z.to_nat n_y) (Z.to_nat n_x) ∧
    let V_x := λ iy ix, default zero (score m (grid_point X Y iy ix) !! 0) in
    let V_y := λ iy ix, default zero (score m (grid_point X Y iy ix) !! 1) in
    grid_at u 0 0 = c ∧
    (∀ ix, 1 ≤ ix < Z.to_nat n_x →
       grid_at u 0 ix =
       (grid_at u 0 (ix - 1) + half * (V_x 0 ix + V_x 0 (ix - 1)%nat) * hx)%S) ∧
    (∀ iy ix, 1 ≤ iy < Z.to_nat n_y → ix < Z.to_nat n_x →
       grid_at u iy ix =
       (grid_at u (iy - 1) ix +
        half * (V_y iy ix + V_y (iy - 1)%nat ix) * hy)%S).
Proof.
  intros Hcomm Hm Hnx Hny hx hy.
  destruct (linspace_Ok xlim.1 xlim.2 n_x) as (X & HX & HlX); [lia|].
  destruct (linspace_Ok ylim.1 ylim.2 n_y) as (Y & HY & HlY); [lia|].
  pose proof (scores_rect2d_Ok m xlim ylim n_x n_y X Y Hm HX HlX HY HlY) as Ht.
  set (t := (λ y, (λ x, score m [x; y]) <$> X) <$> Y) in Ht.
  assert (Hsh : shape3 t (Z.to_nat n_y) (Z.to_nat n_x) 2).
  { rewrite <- HlX, <- HlY. by apply shape3_sampled. }
  assert (Hent : ∀ iy ix, iy < Z.to_nat n_y → ix < Z.to_nat n_x →
    at2 t iy ix = Some (score m (grid_point X Y iy ix))).
  { intros iy ix Hiy Hix. apply at2_sampled; lia. }
  destruct (integrate_scores_rect2d_grid t (Z.to_nat n_y) (Z.to_nat n_x)
    xlim ylim n_x n_y c) as (u & Hrun & Hshu & Hu); [done..|].
  fold hx hy in Hu.
  exists X, Y, u. split; [done|]. split; [done|]. split.
  { simpl. by rewrite Ht. }
  split; [done|]. intros V_x V_y.
  assert (Hfx : ∀ iy ix, iy < Z.to_nat n_y → ix < Z.to_nat n_x →
    field_x t iy ix = V_x iy ix).
  { intros iy ix Hiy Hix. unfold field_x, at3. by rewrite Hent. }
  assert (Hfy : ∀ iy ix, iy < Z.to_nat n_y → ix < Z.to_nat n_x →
    field_y t iy ix = V_y iy ix).
  { intros iy ix Hiy Hix. unfold field_y, at3. by rewrite Hent. }
  split; [|split].
  - rewrite Hu by lia. done.
  - intros ix Hix. rewrite !Hu by lia.
    destruct ix as [|i]; [lia|]. simpl.
    rewrite Nat.sub_0_r. unfold increment_x.
    rewrite !Hfx by lia. rewrite Nat.add_1_r. apply (comm add).
  - intros iy ix Hiy Hix. rewrite !Hu by lia.
    destruct iy as [|j]; [lia|]. simpl.
    rewrite Nat.sub_0_r. unfold increment_y.
    rewrite !Hfy by lia. rewrite Nat.add_1_r. apply (comm add).
Qed.

End ModelGridClaims.

(** ** The losses with the division multiplied out, and in other dimensions *)

Section ScaledExact.
Context {num : Type} `{ExactArithmetic num}.

Add Field scalar_exact_scaled : scalar_field.

Lemma inv_sq_cancel (sigma : num) :
  sigma ≠ zero → (one / sq sigma * (sigma * sigma) = one)%S.
Proof.
  intros Hs. apply (Finv_l scalar_field). by apply sq_nonzero.
Qed.

Lemma scaled_residual_spec (f : vec num → vec num) (xk ek : vec num)
    (sigma : num) :
  sigma ≠ zero → length ek = length xk →
  (denoise_residual f xk ek sigma * sq sigma)%S =
  scaled_residual f xk ek sigma.
Proof.
  intros Hs Hlen. unfold denoise_residual, scaled_residual, sq_norm.
  set (xn := zip_with add xk ((λ e, e * sigma)%S <$> ek)).
  generalize (f xn). intros s.
  transitivity (tsum ((λ r, sq sigma * r)%S <$>
    (sq <$> zip_with sub s
       ((λ d, one / sq sigma * d)%S <$> zip_with sub xk xn)))).
  { rewrite tsum_scale. ring. }
  f_equal. rewrite <- list_fmap_compose. apply list_eq. intros d.
  rewrite !list_lookup_fmap, !lookup_zip_with, list_lookup_fmap.
  rewrite lookup_zip_with. unfold xn.
  rewrite lookup_zip_with, list_lookup_fmap.
  destruct (s !! d) as [sd|]; [|done]. simpl.
  destruct (xk !! d) as [a|] eqn:Ha; simpl.
  - destruct (ek !! d) as [e|]; [|done]. simpl. f_equal.
    unfold sq.
    pose proof (inv_sq_cancel sigma Hs) as Hinv. unfold sq in Hinv.
    set (w := (one / (sigma * sigma))%S) in *.
    transitivity
      ((sigma * sd) * (sigma * sd)
       + (one + one) * (sigma * sd) * e * (w * (sigma * sigma))
       + e * e * (w * (sigma * sigma)) * (w * (sigma * sigma)))%S;
      [ring|].
    rewrite Hinv. ring.
  - apply lookup_ge_None in Ha.
    by rewrite (proj2 (lookup_ge_None ek d)) by lia.
Qed.

Lemma length_noise_row (eps : nat → nat → num) (k : nat) (xk : vec num) :
  length (noise_row eps k xk) = length xk.
Proof. unfold noise_row. by rewrite length_imap. Qed.

Lemma level_nonzero (sigmae : vec num) (i : nat) :
  Forall (λ s, s ≠ zero) sigmae → i < length sigmae →
  level sigmae i ≠ zero.
Proof.
  intros Hall Hi. unfold level.
  destruct (lookup_lt_is_Some_2 sigmae i Hi) as [s Hs]. rewrite Hs. simpl.
  rewrite Forall_lookup in Hall. by apply (Hall i).
Qed.

Lemma weighted_term (r s : num) : (half * r * s = half * (r * s))%S.
Proof. ring. Qed.

Lemma mean_scale (c : num) (l : vec num) :
  mean ((λ r, r * c)%S <$> l) = (c * mean l)%S.
Proof.
  unfold mean. rewrite length_fmap.
  assert (Hext : (λ r, r * c)%S <$> l = (λ r, c * r)%S <$> l).
  { apply list_fmap_ext. intros _ r _. ring. }
  rewrite Hext, tsum_scale, (div_as_mul (tsum l)), div_as_mul. ring.
Qed.

Lemma half_mean_scale (c : num) (l : vec num) :
  (c * (half * mean l) = half * mean ((λ r, r * c) <$> l))%S.
Proof. rewrite mean_scale. ring. Qed.

End ScaledExact.

Section DenoisingScaled.
Context {num : Type} `{Scalar num}.

(** X11. The weight σ² cancels the 1/σ² of the target: in exact arithmetic
    and on a schedule without a zero level, the noise-conditional loss is
    the mean over the batch of 0.5·||σ_k·f(x_k + ε_k·σ_k, i_k) + ε_k||², where
    σ_k is the level drawn for sample k. *)
Theorem ncsm_loss_scaled (m : ConditionalDataScoreModel num)
    (x : batch num) (sigmae : vec num) (rnd : nat → nat)
    (eps : nat → nat → num) :
  ExactArithmetic num →
  0 < length sigmae → Forall (λ s, s ≠ zero) sigmae →
  ncsm_loss m x sigmae rnd eps =
  Ok (mean (imap (λ k xk,
        let i := rnd k `mod` length sigmae in
        (half * scaled_residual (λ y, cond_score m y i) xk
                  (noise_row eps k xk) (level sigmae i))%S) x)).
Proof.
  intros Hexact HK Hall. rewrite ncsm_loss_residuals by done. do 2 f_equal.
  apply imap_ext. intros k xk _. simpl.
  rewrite weighted_term. f_equal. apply scaled_residual_spec.
  - apply level_nonzero; [done|]. apply Nat.mod_upper_bound. lia.
  - apply length_noise_row.
Qed.

(** X12. In exact arithmetic and for sigma other than zero, sigma² times
    the denoising loss is half the batch mean of
    ||sigma·f(x_k + ε_k·sigma) + ε_k||². *)
Theorem dsm_loss_scaled (m : DataScoreModel num) (x : batch num)
    (sigma : num) (eps : nat → nat → num) :
  ExactArithmetic num →
  sigma ≠ zero →
  ∃ v, dsm_loss m x sigma eps = Ok v ∧
    (sq sigma * v)%S =
    (half * mean (imap (λ k xk,
       scaled_residual (score m) xk (noise_row eps k xk) sigma) x))%S.
Proof.
  intros Hexact Hs. eexists. split.
  { by apply dsm_loss_residuals, is_zero_sq_false. }
  rewrite half_mean_scale, fmap_imap. do 2 f_equal.
  apply imap_ext. intros k xk _. simpl.
  apply scaled_residual_spec; [done|]. apply length_noise_row.
Qed.

End DenoisingScaled.

Section IsmDimensions.
Context {num : Type} `{Scalar num}.
Implicit Types (m : DataScoreModel num) (x : batch num).

Lemma only_IndexError_getitem3 {A} (t : list (list (list A))) (a b c : nat) :
  only_IndexError (getitem3 t a b c).
Proof.
  apply only_IndexError_bind; [apply only_IndexError_getitem|].
  intros r _. apply only_IndexError_getitem2.
Qed.

Lemma only_IndexError_getitem4 {A} (t : list (list (list (list A))))
    (a b c d : nat) :
  only_IndexError (getitem4 t a b c d).
Proof.
  apply only_IndexError_bind; [apply only_IndexError_getitem|].
  intros r _. apply only_IndexError_getitem3.
Qed.

Lemma only_IndexError_ism_loss m x : only_IndexError (ism_loss m x).
Proof.
  apply only_IndexError_bind; [|intros tr _; apply only_IndexError_Ok].
  apply only_IndexError_bind.
  { apply only_IndexError_mapM. intros k. apply only_IndexError_getitem4. }
  intros d0 _. apply only_IndexError_bind.
  { apply only_IndexError_mapM. intros k. apply only_IndexError_getitem4. }
  intros d1 _. apply only_IndexError_Ok.
Qed.

Lemma mapM_Ok_head {A B} (f : A → result B) (a : A) (l : list A)
    (r : list B) :
  mapM f (a :: l) = Ok r → is_Ok (f a).
Proof. simpl. destruct (f a) as [b|e]; [by exists b|done]. Qed.

(** X13. In any dimension D ≥ 2 both strategies read the first two diagonal
    entries of the Jacobian and no other: entry [k] of the vector they pass
    to [_ism] is J[0][0] + J[1][1] at [x[k]]. *)
Theorem ism_loss_first_two_diagonal m x (D : nat) :
  2 ≤ D → jacobian_shape m x D →
  let tr := (λ xk, diag01 (jacobian m xk)) <$> x in
  ism_loss_tr m x = Ok tr ∧ ism_loss_fast_tr m x = Ok tr ∧
  ism_loss m x = Ok (_ism tr (forward m x)) ∧
  ism_loss_fast m x = Ok (_ism tr (forward m x)).
Proof.
  intros HD Hsh tr.
  pose proof (ism_loss_tr_diag01 m x D HD Hsh) as Htr. fold tr in Htr.
  unfold ism_loss, ism_loss_fast. rewrite ism_loss_fast_tr_eq, Htr. done.
Qed.

(** X14. On a non-empty batch of points of dimension below 2 the exact
    strategy raises [IndexError]: the Jacobian has no entry [(1, 1)]. *)
Theorem ism_loss_one_dimension m x (D : nat) :
  D < 2 → x ≠ [] → jacobian_shape m x D →
  ism_loss m x = Err IndexError.
Proof.
  intros HD Hx Hsh.
  apply only_IndexError_Err; [apply only_IndexError_ism_loss|].
  intros [v Hv]. unfold ism_loss in Hv.
  apply bind_Ok_inv in Hv as (tr & Htr & _). unfold ism_loss_tr in Htr.
  apply bind_Ok_inv in Htr as (d0 & _ & Htr).
  apply bind_Ok_inv in Htr as (d1 & Hd1 & _).
  destruct x as [|x0 x']; [done|].
  change (seq 0 (length (x0 :: x'))) with (0 :: seq 1 (length x')) in Hd1.
  apply mapM_Ok_head in Hd1 as [a Ha].
  rewrite (full_jacobian_entry m (x0 :: x') 0 1 1 x0) in Ha by done.
  apply getitem2_Ok_lt in Ha.
  unfold jacobian_shape in Hsh. apply Forall_cons in Hsh as [[_ [HJ _]] _].
  lia.
Qed.

End IsmDimensions.

(** ** The further properties at sample inputs *)

Global Instance Qc_add_assoc : Assoc (=) (add (num:=Qc)).
Proof. intros a b c. apply Qcplus_assoc. Qed.

Global Instance Qc_add_left_id : LeftId (=) (zero (num:=Qc)) add.
Proof. intros a. apply Qcplus_0_l. Qed.

Lemma integrate_scores_rect2d_exception_witness :
  integrate_scores_rect2d field_2x3 (0, 2)%Z (0, 1)%Z 0 2 (qz 0) =
  Err IndexError.
Proof.
  apply (integrate_scores_rect2d_exception field_2x3 (0, 2)%Z (0, 1)%Z 0 2
    (qz 0)).
  lia.
Defined.

Lemma integrate_scores_rect2d_constant_witness :
  ∃ u0 u,
    integrate_scores_rect2d field_2x3 (0, 2)%Z (0, 1)%Z 3 2 zero = Ok u0 ∧
    integrate_scores_rect2d field_2x3 (0, 2)%Z (0, 1)%Z 3 2 (qz 5) = Ok u ∧
    ∀ iy ix, iy < 2 → ix < 3 →
      grid_at u iy ix = (grid_at u0 iy ix + qz 5)%S.
Proof.
  apply (integrate_scores_rect2d_constant field_2x3 (0, 2)%Z (0, 1)%Z 3 2
    (qz 5)).
  - apply Qc_add_assoc.
  - apply Qc_add_left_id.
  - lia.
  - lia.
  - repeat constructor.
Defined.

Lemma integrate_scores_rect2d_additive_witness :
  ∃ uv uw us,
    integrate_scores_rect2d field_2x3 (0, 2)%Z (0, 1)%Z 3 2 (qz 1) = Ok uv ∧
    integrate_scores_rect2d field_2x3' (0, 2)%Z (0, 1)%Z 3 2 (qz 2) = Ok uw ∧
    integrate_scores_rect2d (field_add field_2x3 field_2x3')
      (0, 2)%Z (0, 1)%Z 3 2 (qz 1 + qz 2)%S = Ok us ∧
    ∀ iy ix, iy < 2 → ix < 3 →
      grid_at us iy ix = (grid_at uv iy ix + grid_at uw iy ix)%S.
Proof.
  apply (integrate_scores_rect2d_additive field_2x3 field_2x3'
    (0, 2)%Z (0, 1)%Z 3 2 (qz 1) (qz 2)).
  - apply Qc_exact.
  - lia.
  - lia.
  - repeat constructor.
  - repeat constructor.
Defined.

Lemma integrate_scores_rect2d_crops_witness :
  ∃ u,
    integrate_scores_rect2d field_2x3 (0, 2)%Z (0, 1)%Z 2 2 (qz 0) = Ok u ∧
    integrate_scores_rect2d (crop 2 2 field_2x3) (0, 2)%Z (0, 1)%Z 2 2 (qz 0)
      = Ok u.
Proof.
  apply (integrate_scores_rect2d_crops field_2x3 2 3 (0, 2)%Z (0, 1)%Z 2 2
    (qz 0)).
  - lia.
  - lia.
  - repeat constructor.
  - simpl. lia.
  - simpl. lia.
Defined.

Lemma integrate_scores_rect2d_undersized_witness :
  integrate_scores_rect2d field_2x3 (0, 2)%Z (0, 1)%Z 4 2 (qz 0) =
  Err IndexError.
Proof.
  apply (integrate_scores_rect2d_undersized field_2x3 2 3 (0, 2)%Z (0, 1)%Z
    4 2 (qz 0)).
  - lia.
  - lia.
  - repeat constructor.
  - right. simpl. lia.
Defined.

Lemma integrate_scores_rect2d_path_witness :
  ∃ u u',
    integrate_scores_rect2d field_2x3 (0, 2)%Z (0, 1)%Z 3 2 (qz 0) = Ok u ∧
    integrate_scores_rect2d field_2x3_far (0, 2)%Z (0, 1)%Z 3 2 (qz 0) =
      Ok u' ∧
    grid_at u 1 1 = grid_at u' 1 1.
Proof.
  apply (integrate_scores_rect2d_path field_2x3 field_2x3_far
    (0, 2)%Z (0, 1)%Z 3 2 (qz 0) 1 1).
  - lia.
  - lia.
  - repeat constructor.
  - repeat constructor.
  - simpl. lia.
  - simpl. lia.
  - intros [|[|i]] Hi; (reflexivity || lia).
  - intros [|[|j]] Hj; (reflexivity || lia).
Defined.

Lemma scores_rect2d_grid_witness :
  ∃ X Y t,
    linspace 0 2 3 = Ok X ∧
    linspace 0 1 2 = Ok Y ∧
    scores_rect2d square_model (0, 2)%Z (0, 1)%Z 3 2 = Ok t ∧
    shape3 t 2 3 2 ∧
    ∀ iy ix, iy < 2 → ix < 3 →
      at2 t iy ix = Some (score square_model (grid_point X Y iy ix)).
Proof.
  apply (scores_rect2d_grid square_model (0, 2)%Z (0, 1)%Z 3 2).
  - intros p Hp. simpl. by rewrite length_fmap.
  - lia.
  - lia.
Defined.

Lemma scores_rect2d_errors_witness :
  scores_rect2d square_model (0, 2)%Z (0, 1)%Z (-1) 2 = Err RuntimeError ∧
  scores_rect2d three_model (0, 2)%Z (0, 1)%Z 3 2 = Err RuntimeError.
Proof.
  split.
  - apply (scores_rect2d_errors square_model (0, 2)%Z (0, 1)%Z (-1) 2). lia.
  - apply (proj2 (scores_rect2d_errors three_model (0, 2)%Z (0, 1)%Z 3 2) 3).
    + lia.
    + reflexivity.
    + lia.
    + lia.
Defined.

Lemma integrate_scores_rect2d_any_degenerate_witness :
  is_Err (integrate_scores_rect2d_any (scores_model square_model)
            (0, 2)%Z (0, 1)%Z 1 2 (qz 0)).
Proof.
  apply (integrate_scores_rect2d_any_degenerate (scores_model square_model)
    (0, 2)%Z (0, 1)%Z 1 2 (qz 0)).
  lia.
Defined.

Lemma integrate_scores_rect2d_model_witness :
  ∃ X Y u,
    linspace 0 2 3 = Ok X ∧
    linspace 0 1 2 = Ok Y ∧
    integrate_scores_rect2d_any (scores_model square_model)
      (0, 2)%Z (0, 1)%Z 3 2 (qz 0) = Ok u ∧
    shape2 u 2 3 ∧
    grid_at u 0 0 = qz 0 ∧
    (∀ ix, 1 ≤ ix < 3 →
       grid_at u 0 ix =
       (grid_at u 0 (ix - 1) +
        half * (default zero (score square_model (grid_point X Y 0 ix) !! 0) +
                default zero
                  (score square_model (grid_point X Y 0 (ix - 1)) !! 0)) *
        (of_Z (2 - 0) / of_Z (3 - 1)))%S) ∧
    (∀ iy ix, 1 ≤ iy < 2 → ix < 3 →
       grid_at u iy ix =
       (grid_at u (iy - 1) ix +
        half * (default zero (score square_model (grid_point X Y iy ix) !! 1) +
                default zero
                  (score square_model (grid_point X Y (iy - 1) ix) !! 1)) *
        (of_Z (1 - 0) / of_Z (2 - 1)))%S).
Proof.
  apply (integrate_scores_rect2d_model square_model (0, 2)%Z (0, 1)%Z 3 2
    (qz 0)).
  - apply Qc_add_comm.
  - intros p Hp. simpl. by rewrite length_fmap.
  - lia.
  - lia.
Defined.

Lemma ncsm_loss_scaled_witness :
  ncsm_loss scale_model batch_2d [qz 1; qz 2] (λ k, k) sample_eps =
  Ok (mean (imap (λ k xk,
        (half * scaled_residual (λ y, cond_score scale_model y (k `mod` 2)) xk
                  (noise_row sample_eps k xk)
                  (level [qz 1; qz 2] (k `mod` 2)))%S) batch_2d)).
Proof.
  apply (ncsm_loss_scaled scale_model batch_2d [qz 1; qz 2] (λ k, k)
    sample_eps).
  - apply Qc_exact.
  - simpl. lia.
  - repeat constructor; intros Heq; discriminate Heq.
Defined.

Lemma dsm_loss_scaled_witness :
  ∃ v, dsm_loss square_model batch_2d (qz 2) sample_eps = Ok v ∧
    (sq (qz 2) * v)%S =
    (half * mean (imap (λ k xk,
       scaled_residual (score square_model) xk (noise_row sample_eps k xk)
         (qz 2)) batch_2d))%S.
Proof.
  apply (dsm_loss_scaled square_model batch_2d (qz 2) sample_eps).
  - apply Qc_exact.
  - intros Heq. discriminate Heq.
Defined.

Lemma ism_loss_first_two_diagonal_witness :
  ism_loss_tr square_model batch_3d =
    Ok ((λ xk, diag01 (jacobian square_model xk)) <$> batch_3d) ∧
  ism_loss_fast_tr square_model batch_3d =
    Ok ((λ xk, diag01 (jacobian square_model xk)) <$> batch_3d) ∧
  ism_loss square_model batch_3d =
    Ok (_ism ((λ xk, diag01 (jacobian square_model xk)) <$> batch_3d)
          (forward square_model batch_3d)) ∧
  ism_loss_fast square_model batch_3d =
    Ok (_ism ((λ xk, diag01 (jacobian square_model xk)) <$> batch_3d)
          (forward square_model batch_3d)).
Proof.
  apply (ism_loss_first_two_diagonal square_model batch_3d 3).
  - lia.
  - repeat constructor.
Defined.

Lemma ism_loss_one_dimension_witness :
  ism_loss square_model batch_1d = Err IndexError.
Proof.
  apply (ism_loss_one_dimension square_model batch_1d 1).
  - lia.
  - discriminate.
  - repeat constructor.
Defined.
